(** * kr/fs: the Walker iterator and the path join, verified over a shallow embedding

    The development follows the Go sources:
    - [filesystem.go]: the [FileSystem] interface and [Join];
    - [walk.go]: [Walker], [Walk], [recv], [Step], [Path], [Stat], [Err],
      [SkipDir] and [Stop].

    [walk.go] runs [filepath.Walk] in a goroutine and talks to it over two
    channels.  The goroutine is embedded as a resumable computation (a free
    monad over the one effect "call walkFn"), the channels as explicit state,
    and every method of [*Walker] as a computation in a small monad whose
    outcomes are: returned, blocked for ever, or panicked. *)

From Stdlib Require Import String Ascii List Bool Arith NArith Lia Permutation Sorted.
From ExtLib Require Import Structures.Monad.
Import ListNotations.
Import MonadNotation.
Local Open Scope string_scope.
Local Open Scope monad_scope.

(* ===================================================================== *)
(** * Part I: definitions                                                 *)
(* ===================================================================== *)

(** ** Values shared by both files *)

(** Go's [error] values that occur in the package.  A Go [error] may be
    [nil]: it is an [option error] here. *)
Inductive error : Type :=
| filepath_SkipDir              (* filepath.SkipDir *)
| ErrStop                       (* errors.New("stop"), made by Stop *)
| PathError (msg : string).     (* what Lstat or ReadDir report *)

(** [os.FileInfo], reduced to the two methods the package or its callers
    can tell apart here.  The interface value may be [nil]:
    [option FileInfo]. *)
Record FileInfo : Type := mkFileInfo { Name : string; IsDir : bool }.

(** ** filesystem.go *)

(** [type FileSystem interface { ReadDir; Lstat; PathSeparator }] *)
Record FileSystem : Type := mkFileSystem {
  ReadDir : string -> list FileInfo * option error;
  Lstat : string -> option FileInfo * option error;
  PathSeparator : ascii
}.

(** [string(b)] for a byte [b]: Go converts the integer to the UTF-8
    encoding of that code point, one byte below 0x80 and two bytes above. *)
Definition string_of_byte (b : ascii) : string :=
  let n := N_of_ascii b in
  if (n <? 128)%N then String b EmptyString
  else String (ascii_of_N (N.lor 192 (N.shiftr n 6)))
         (String (ascii_of_N (N.lor 128 (N.land n 63))) EmptyString).

(** [strings.Join(elems, sep)] *)
Definition strings_Join (elems : list string) (sep : string) : string :=
  String.concat sep elems.

Section JoinDef.
(** [filepath.Clean] belongs to Go's standard library and depends on the
    operating system; [Join] only passes its argument through it. *)
Variable Clean : string -> string.

(** The [for i, e := range elem] loop of [Join]: [rest] is what is left
    to range over, [i] the index of its head in [elem]. *)
Fixpoint Join_range (sep : string) (elem : list string) (i : nat)
         (rest : list string) : string :=
  match rest with
  | [] => ""
  | e :: rest' =>
      if negb (e =? "")
      then Clean (strings_Join (skipn i elem) sep)
      else Join_range sep elem (S i) rest'
  end.

Definition Join (fs : FileSystem) (elem : list string) : string :=
  let sep := string_of_byte (PathSeparator fs) in
  Join_range sep elem 0 elem.
End JoinDef.

(** ** The file tree under the walk *)

Set Warnings "-register-all".

(** What the operating system answers for one name: [os.Lstat] fails
    ([Gone]), or describes a non-directory ([File]), or a directory ([Dir])
    whose listing either fails with [rd = Some e] or yields [ents], in the
    order the system happens to return them. *)
Inductive node : Type :=
| Gone (name : string) (e : error)
| File (name : string)
| Dir (name : string) (rd : option error) (ents : list node).

Definition node_name (n : node) : string :=
  match n with Gone s _ | File s | Dir s _ _ => s end.

(** [os.Lstat] on the name that leads to [n] *)
Definition lstat (n : node) : option FileInfo * option error :=
  match n with
  | Gone _ e => (None, Some e)
  | File s => (Some (mkFileInfo s false), None)
  | Dir s _ _ => (Some (mkFileInfo s true), None)
  end.

(** ** The parts of path/filepath that walk.go calls

    [filepath.Walk] and what it calls ([walk], [readDirNames],
    [sort.Strings], [filepath.Join]) belong to Go's standard library and
    are not among the repository's sources.  They are modelled after the
    contract the specification gives for the traversal (4.1: one call of
    the callback per node with its path, metadata and error; a directory
    before its children; children in lexical order of their names; no
    descent below a node with an error or after [filepath.SkipDir]; any
    other error returned by the callback ends the walk at once), in the
    shape of the library's code. *)

(** Modelled from the spec: [sort.Strings] as used by [readDirNames]
    (standard library), which puts the children in lexical order of their
    names; here on the entries keyed by their names (an insertion sort; the
    byte order of [String.leb] is Go's order on strings). *)
Section SortBy.
Context {A : Type} (key : A -> string).

Fixpoint insert_by (x : A) (l : list A) : list A :=
  match l with
  | [] => [x]
  | y :: l' => if String.leb (key x) (key y) then x :: l else y :: insert_by x l'
  end.

Definition sort_by (l : list A) : list A := fold_right insert_by [] l.
End SortBy.

(** [filepath.WalkFunc] is a callback.  [filepath.Walk] is embedded as a
    resumable computation: [Call path info err k] stands at a call
    [walkFn(path, info, err)] and goes on with [k r] once the callback has
    returned [r]. *)
Inductive walkM (A : Type) : Type :=
| Ret (a : A)
| Call (path : string) (info : option FileInfo) (err : option error)
       (k : option error -> walkM A).
Arguments Ret {A} a.
Arguments Call {A} path info err k.

Fixpoint walkM_bind {A B : Type} (p : walkM A) (f : A -> walkM B) : walkM B :=
  match p with
  | Ret a => f a
  | Call path info err k => Call path info err (fun r => walkM_bind (k r) f)
  end.

#[global] Instance Monad_walkM : Monad walkM :=
  {| ret := @Ret; bind := @walkM_bind |}.

Definition walkFn (path : string) (info : option FileInfo) (err : option error)
  : walkM (option error) :=
  Call path info err Ret.

Definition is_SkipDir (e : option error) : bool :=
  match e with Some filepath_SkipDir => true | _ => false end.

Definition is_nil {A : Type} (e : option A) : bool :=
  match e with None => true | Some _ => false end.

Section Filepath.
(** The two things of path/filepath that depend on the operating system. *)
Variable Clean : string -> string.
Variable Separator : ascii.

(** Modelled from the spec: [filepath.Join] (standard library): the same
    loop as [Join], on [filepath.Separator]. *)
Definition filepath_Join (elem : list string) : string :=
  Join_range Clean (string_of_byte Separator) elem 0 elem.

(** Modelled from the spec: the [for _, name := range names] loop of
    [filepath.walk] (standard library).  An entry carries the name, the
    node that [lstat(filename)] finds under it, and the walk of that node. *)
Fixpoint walk_range (path : string)
         (names : list (string * (node * (string -> walkM (option error)))))
  : walkM (option error) :=
  match names with
  | [] => ret None
  | (name, (n, walk_n)) :: names' =>
      let filename := filepath_Join [path; name] in
      match lstat n with
      | (fileInfo, Some e) =>
          err <- walkFn filename fileInfo (Some e) ;;
          if negb (is_nil err) && negb (is_SkipDir err)
          then ret err
          else walk_range path names'
      | (fileInfo, None) =>
          err <- walk_n filename ;;
          if negb (is_nil err)
             && (negb (match fileInfo with Some fi => IsDir fi | None => false end)
                 || negb (is_SkipDir err))
          then ret err
          else walk_range path names'
      end
  end.

(** Modelled from the spec: [filepath.walk(path, info, walkFn)] (standard
    library), for the node [n] that [path] names; [info] is [lstat n], which
    has succeeded when [walk] is called.  The callback is called once, with
    the error of reading the directory if there is one, and the children
    are walked only when neither that error nor the callback's answer says
    otherwise. *)
Fixpoint walk (n : node) (path : string) {struct n} : walkM (option error) :=
  match n with
  | Gone _ _ => ret None
  | File _ => walkFn path (fst (lstat n)) None
  | Dir _ rd ents =>
      (* names, err := readDirNames(path) *)
      let names := sort_by fst (map (fun c => (node_name c, (c, walk c))) ents) in
      let err := rd in
      err1 <- walkFn path (fst (lstat n)) err ;;
      if negb (is_nil err) || negb (is_nil err1)
      then ret err1
      else walk_range path names
  end.

(** Modelled from the spec: [filepath.Walk(root, fn)] (standard library):
    the root first, with the error of [Lstat] if it fails. *)
Definition filepath_Walk (root : string) (n : node) : walkM (option error) :=
  err <- match lstat n with
         | (_, Some e) => walkFn root None (Some e)
         | (_, None) => walk n root
         end ;;
  if is_SkipDir err then ret None else ret err.
End Filepath.

(** ** walk.go *)

(** [type item struct { path string; info os.FileInfo; err error }] *)
Record item : Type := mkItem {
  path : string;
  info : option FileInfo;
  err : option error
}.

(** The zero value of [item]: what a receive from the closed [itemch]
    yields, and what [new(Walker)] holds in [cur]. *)
Definition zero_item : item := mkItem "" None None.

(** Where the goroutine started by [Walk] stands:
    - [Walking (Call path info err k)]: inside [filepath.Walk], in [recv],
      at [w.itemch <- item{path, info, err}];
    - [Receiving k]: in [recv], at [return <-w.retch];
    - [Walking (Ret _)]: [filepath.Walk] has returned, at [close(w.itemch)];
    - [Exited]: [w.itemch] is closed and the goroutine is gone. *)
Inductive goroutine : Type :=
| Walking (p : walkM (option error))
| Receiving (k : option error -> walkM (option error))
| Exited.

(** [type Walker struct { itemch; cur; ok; retch; ret }].  [itemch] has no
    buffer, so all there is to know about it is where the goroutine at its
    sending end stands; [retch] has a buffer of one value. *)
Record Walker : Type := mkWalker {
  itemch : goroutine;
  cur : item;
  ok : bool;
  retch : option (option error);
  ret_ : option error             (* the field [ret] *)
}.

Definition set_itemch (g : goroutine) (w : Walker) : Walker :=
  mkWalker g (cur w) (ok w) (retch w) (ret_ w).
Definition set_cur (c : item) (w : Walker) : Walker :=
  mkWalker (itemch w) c (ok w) (retch w) (ret_ w).
Definition set_ok (b : bool) (w : Walker) : Walker :=
  mkWalker (itemch w) (cur w) b (retch w) (ret_ w).
Definition set_retch (c : option (option error)) (w : Walker) : Walker :=
  mkWalker (itemch w) (cur w) (ok w) c (ret_ w).
Definition set_ret (e : option error) (w : Walker) : Walker :=
  mkWalker (itemch w) (cur w) (ok w) (retch w) e.

(** How a call of a method of [*Walker] ends. *)
Inductive outcome (A : Type) : Type :=
| Done (a : A) (w : Walker)     (* it returns [a] and leaves the Walker as [w] *)
| Blocked                       (* it waits for ever on a channel *)
| Panic.                        (* it dereferences nil *)
Arguments Done {A} a w.
Arguments Blocked {A}.
Arguments Panic {A}.

Definition M (A : Type) : Type := Walker -> outcome A.

Definition M_bind {A B : Type} (c : M A) (f : A -> M B) : M B :=
  fun w => match c w with
           | Done a w' => f a w'
           | Blocked => Blocked
           | Panic => Panic
           end.

#[global] Instance Monad_M : Monad M :=
  {| ret := fun A a w => Done a w; bind := @M_bind |}.

Definition gets {A : Type} (f : Walker -> A) : M A := fun w => Done (f w) w.
Definition modify (f : Walker -> Walker) : M unit := fun w => Done tt (f w).

(** [func (w *Walker) recv(path, info, err) error], the callback given to
    [filepath.Walk], in its two steps.  [recv_send]: at
    [w.itemch <- item{path, info, err}] the goroutine hands over the item
    and goes on to the receive.  [recv_return]: at [return <-w.retch] it
    takes [r] and [filepath.Walk] goes on with [r] as the callback's
    result. *)
Definition recv_send (g : goroutine) : option (item * goroutine) :=
  match g with
  | Walking (Call path info err k) => Some (mkItem path info err, Receiving k)
  | _ => None
  end.

Definition recv_return (g : goroutine) (r : option error) : option goroutine :=
  match g with
  | Receiving k => Some (Walking (k r))
  | _ => None
  end.

(** One step the goroutine takes on its own: in [recv] it receives the
    value buffered in [retch], or, [filepath.Walk] having returned, it
    closes [itemch].  At a send on [itemch] it waits for [Step]. *)
Definition background (w : Walker) : Walker :=
  match itemch w with
  | Receiving _ =>
      match retch w with
      | Some r =>
          match recv_return (itemch w) r with
          | Some g => set_retch None (set_itemch g w)
          | None => w
          end
      | None => w
      end
  | Walking (Ret _) => set_itemch Exited w
  | Walking (Call _ _ _ _) => w
  | Exited => w
  end.

(** [w.retch <- v]: a send on the buffered channel.  With the buffer full
    the sender waits until the goroutine has received; a goroutine that is
    not at [<-w.retch] never will. *)
Definition send_retch (v : option error) : M unit :=
  fun w =>
    match retch w with
    | None => Done tt (set_retch (Some v) w)
    | Some _ =>
        match itemch w with
        | Receiving _ => Done tt (set_retch (Some v) (background w))
        | _ => Blocked
        end
    end.

(** [select { case w.retch <- v: default: }].  When the goroutine already
    waits in [<-w.retch], Go hands the value to it at once and the buffer
    stays empty; here the value rests in [retch] until the goroutine's next
    step ([background]), so that the hand-over is the send followed by one
    step of the goroutine, and the send that meets a goroutine still on its
    way to [<-w.retch] is the send followed by none.  What a sequence of
    calls does in the program is therefore what holds for every placement
    of the goroutine's steps between them. *)
Definition try_send_retch (v : option error) : M unit :=
  fun w =>
    match retch w with
    | None => Done tt (set_retch (Some v) w)
    | Some _ => Done tt w
    end.

(** [<-w.itemch] once the goroutine is at its send or has finished. *)
Definition recv_ready : M (item * bool) :=
  fun w =>
    match itemch w with
    | Walking (Call _ _ _ _) =>
        match recv_send (itemch w) with
        | Some (it, g) => Done (it, true) (set_itemch g w)
        | None => Blocked
        end
    | Walking (Ret _) => Done (zero_item, false) (set_itemch Exited w)
    | Exited => Done (zero_item, false) w
    | Receiving _ => Blocked
    end.

(** [<-w.itemch]: the receiver waits for the goroutine to come to its next
    send or to close the channel; a goroutine waiting on an empty [retch]
    never does. *)
Definition recv_itemch : M (item * bool) :=
  fun w =>
    match itemch w with
    | Receiving _ =>
        match retch w with
        | Some _ => recv_ready (background w)
        | None => Blocked
        end
    | _ => recv_ready w
    end.

(** [info.IsDir()] on an interface value that may be nil *)
Definition FileInfo_IsDir (i : option FileInfo) : M bool :=
  fun w => match i with
           | Some fi => Done (IsDir fi) w
           | None => Panic
           end.

Section Walker.
Variable Clean : string -> string.
Variable Separator : ascii.

(** [func Walk(root string) *Walker], on the file tree [n] found at [root] *)
Definition Walk (root : string) (n : node) : Walker :=
  {| itemch := Walking (filepath_Walk Clean Separator root n);
     cur := zero_item;
     ok := false;
     retch := None;
     ret_ := None |}.
End Walker.

(** [func (w *Walker) Step() bool] *)
Definition Step : M bool :=
  ok0 <- gets ok ;;
  (if ok0 : bool then r <- gets ret_ ;; send_retch r else ret tt) ;;
  x <- recv_itemch ;;
  modify (set_cur (fst x)) ;;
  modify (set_ok (snd x)) ;;
  modify (set_ret None) ;;
  gets ok.

(** [func (w *Walker) Path() string] *)
Definition Path : M string := gets (fun w => path (cur w)).

(** [func (w *Walker) Stat() os.FileInfo] *)
Definition Stat : M (option FileInfo) := gets (fun w => info (cur w)).

(** [func (w *Walker) Err() error] *)
Definition Err : M (option error) := gets (fun w => err (cur w)).

(** [func (w *Walker) SkipDir()] *)
Definition SkipDir : M unit :=
  ok0 <- gets ok ;;
  if ok0 : bool
  then c <- gets cur ;;
       d <- FileInfo_IsDir (info c) ;;
       if d : bool then modify (set_ret (Some filepath_SkipDir)) else ret tt
  else ret tt.

(** [func (w *Walker) Stop()] *)
Definition Stop : M unit := try_send_retch (Some ErrStop).

(** ** The caller's loop *)

(** [yield n]: the scheduler lets the goroutine take [n] steps while the
    caller is between two calls. *)
Definition yield (n : nat) : M unit := modify (Nat.iter n background).

(** What a caller reads off the Walker after a successful [Step]. *)
Definition entry : M item :=
  p <- Path ;; i <- Stat ;; e <- Err ;; ret (mkItem p i e).

(** [for w.Step() { ...; if skip(i, entry) { w.SkipDir() } }], collecting the
    entries.  [skip] decides from the number [i] of entries seen before and
    from the entry; [sched] says how long the goroutine runs before each of
    the caller's calls.  [None] is returned when [fuel] iterations did not
    reach the end of the loop. *)
Fixpoint drain (skip : nat -> item -> bool) (sched : nat -> nat) (fuel i : nat)
  : M (option (list item)) :=
  match fuel with
  | 0 => ret None
  | S fuel' =>
      yield (sched (2 * i)) ;;
      more <- Step ;;
      if more : bool
      then it <- entry ;;
           yield (sched (2 * i + 1)) ;;
           (if skip i it then SkipDir else ret tt) ;;
           rest <- drain skip sched fuel' (S i) ;;
           ret (option_map (cons it) rest)
      else ret (Some [])
  end.

Definition never (_ : nat) (_ : item) : bool := false.

(** [result c w]: what a call returns, leaving the Walker aside. *)
Definition result {A : Type} (o : outcome A) : option A :=
  match o with Done a _ => Some a | _ => None end.

(** The Walker a call leaves behind ([w] itself if the call does not return). *)
Definition state_after {A : Type} (o : outcome A) (w : Walker) : Walker :=
  match o with Done _ w' => w' | _ => w end.

(** ** The traversal as the specification words it *)

(** The Entry of a node: its path, its metadata and the error met there. *)
Definition entry_of (p : string) (n : node) : item :=
  match n with
  | Gone _ e => mkItem p None (Some e)
  | File s => mkItem p (Some (mkFileInfo s false)) None
  | Dir s rd _ => mkItem p (Some (mkFileInfo s true)) rd
  end.

Definition is_dir_entry (it : item) : bool :=
  match info it with Some fi => IsDir fi | None => false end.

Section Spec.
Variable Clean : string -> string.
Variable Separator : ascii.

(** The children one after the other, [i] counting the entries before. *)
Fixpoint spec_children (p : string) (i : nat)
         (cs : list (string * (nat -> string -> list item))) : list item :=
  match cs with
  | [] => []
  | (name, f) :: cs' =>
      let l := f i (filepath_Join Clean Separator [p; name]) in
      l ++ spec_children p (i + length l) cs'
  end.

(** Depth-first, pre-order, children in lexical order of their names; no
    descent below a node that is not a directory, that carries an error,
    or that the caller asked to skip. *)
Fixpoint spec_walk (skip : nat -> item -> bool) (n : node) (i : nat) (p : string)
  : list item :=
  entry_of p n ::
  match n with
  | Dir _ None ents =>
      if skip i (entry_of p n) then []
      else spec_children p (S i)
             (sort_by fst (map (fun c => (node_name c, spec_walk skip c)) ents))
  | _ => []
  end.

(** The same without the caller's choices: the plain pre-order listing. *)
Fixpoint preorder (n : node) (p : string) : list item :=
  entry_of p n ::
  match n with
  | Dir _ None ents =>
      flat_map (fun c : string * (string -> list item) =>
                  snd c (filepath_Join Clean Separator [p; fst c]))
               (sort_by fst (map (fun c => (node_name c, preorder c)) ents))
  | _ => []
  end.
End Spec.

(** The nodes of a tree: all of them, and those a walk can reach (not below
    a directory whose listing fails). *)
Fixpoint node_count (n : node) : nat :=
  match n with
  | Dir _ _ ents => S (list_sum (map node_count ents))
  | _ => 1
  end.

Fixpoint reachable_count (n : node) : nat :=
  match n with
  | Dir _ None ents => S (list_sum (map reachable_count ents))
  | _ => 1
  end.


(** The tree with everything below an unreadable directory removed. *)
Fixpoint prune_unreadable (n : node) : node :=
  match n with
  | Dir s None ents => Dir s None (map prune_unreadable ents)
  | Dir s (Some e) _ => Dir s (Some e) []
  | _ => n
  end.

(** ** filepath.Clean on Unix, for running the definitions

    [filepath.Clean] is Go's standard library; it stays a parameter of
    everything above.  The model below (the library's rules for empty
    elements, ".", ".." and rooted paths, element by element) instantiates
    that parameter where a definition is run on a concrete input. *)

Definition slash : ascii := "/"%char.

(** The elements of a path between its separators. *)
Fixpoint elements (s : string) : list string :=
  match s with
  | EmptyString => [EmptyString]
  | String c s' =>
      if Ascii.eqb c slash then EmptyString :: elements s'
      else match elements s' with
           | e :: es => String c e :: es
           | [] => [String c EmptyString]
           end
  end.

(** One element read by [Clean]; [out] holds the elements written so far,
    the last one first. *)
Definition clean_elem (rooted : bool) (out : list string) (e : string) : list string :=
  if (e =? "") || (e =? ".") then out
  else if e =? ".." then
    match out with
    | top :: out' => if top =? ".." then e :: out else out'
    | [] => if rooted then out else [e]
    end
  else e :: out.

(** The elements [Clean] keeps of [p], the last one first. *)
Definition unix_out (p : string) : list string :=
  fold_left (clean_elem (String.prefix "/" p)) (elements p) [].

(** The cleaned path written out from the elements kept. *)
Definition unix_render (rooted : bool) (out : list string) : string :=
  if rooted then "/" ++ String.concat "/" (rev out)
  else match out with
       | [] => "."
       | _ => String.concat "/" (rev out)
       end.

Definition unix_Clean (p : string) : string :=
  unix_render (String.prefix "/" p) (unix_out p).


(** A name as a directory can hold it: not empty, not "." or "..", and
    without a separator. *)
Fixpoint no_slash (s : string) : bool :=
  match s with
  | EmptyString => true
  | String c s' => negb (Ascii.eqb c slash) && no_slash s'
  end.


(** A [FileSystem] with the Unix separator and nothing on the disk: every
    name is missing.  [Join] uses nothing but the separator. *)
Definition unix_fs : FileSystem :=
  {| ReadDir := fun _ => ([], Some (PathError "no such file or directory"));
     Lstat := fun _ => (None, Some (PathError "no such file or directory"));
     PathSeparator := slash |}.

(** ** Any use of a Walker *)

(** The calls a caller can make, and [CYield] for the goroutine running in
    between. *)
Inductive call : Type := CStep | CSkipDir | CStop | CYield.

Definition do_call (c : call) : M unit :=
  match c with
  | CStep => _ <- Step ;; ret tt
  | CSkipDir => SkipDir
  | CStop => Stop
  | CYield => yield 1
  end.

Fixpoint do_calls (cs : list call) : M unit :=
  match cs with
  | [] => ret tt
  | c :: cs' => do_call c ;; do_calls cs'
  end.

(** ** What the statements below speak of *)

(** The state a walk ends in, and that no call leaves it. *)
Definition ended (w : Walker) : Prop :=
  ok w = false /\ itemch w = Exited /\ cur w = zero_item.

(** The nodes in the order of the walk. *)
Fixpoint visited (n : node) : list node :=
  n :: match n with
       | Dir _ None ents =>
           flat_map snd (sort_by fst (map (fun c => (node_name c, visited c)) ents))
       | _ => []
       end.


(** The failure met at a node: of [Lstat], or of reading the directory. *)
Definition node_error (n : node) : option error :=
  match n with
  | Gone _ e => Some e
  | File _ => None
  | Dir _ rd _ => rd
  end.

(** The caller who calls [SkipDir] once, on the entry number [j] (counted
    from 0) if that entry is a directory. *)
Definition skip_at (j : nat) : nat -> item -> bool :=
  fun i it => Nat.eqb i j && is_dir_entry it.



(** ** Notions of the proofs *)

Ltac run := unfold Step, SkipDir, Stop, Path, Stat, Err, entry, yield, gets, modify,
              try_send_retch, send_retch, recv_itemch, recv_ready, FileInfo_IsDir;
            cbn.

Section JoinSuffix.
Variable Clean : string -> string.

(** [Join] as a recursion on the elements still to range over. *)
Fixpoint Join_suffix (sep : string) (rest : list string) : string :=
  match rest with
  | [] => ""
  | e :: rest' =>
      if negb (e =? "") then Clean (strings_Join rest sep) else Join_suffix sep rest'
  end.
End JoinSuffix.

Section KeyOrder.
Context {A : Type} (key : A -> string).

(** The order the sort puts the entries in. *)
Definition key_le (a b : A) : Prop := String.leb (key a) (key b) = true.
End KeyOrder.

(** What [Step] sends back for an entry: [filepath.SkipDir] when the caller
    called [SkipDir] on a directory, nil otherwise. *)
Definition reply (skip : nat -> item -> bool) (i : nat) (it : item) : option error :=
  if skip i it && is_dir_entry it then Some filepath_SkipDir else None.

(** The calls a program makes when each is answered by [reply], and what it
    returns in the end; [i] counts the calls made before. *)
Fixpoint replay {A : Type} (skip : nat -> item -> bool) (p : walkM A) (i : nat)
  : list item * A :=
  match p with
  | Ret a => ([], a)
  | Call pa inf er k =>
      let it := mkItem pa inf er in
      let r := replay skip (k (reply skip i it)) (S i) in
      (it :: fst r, snd r)
  end.

(** The state of the Walker whenever the loop is about to call [Step], with
    [p] the program the goroutine has still to run. *)
Definition loop_state (w : Walker) (p : walkM (option error)) : Prop :=
  retch w = None
  /\ ((ok w = false
       /\ (itemch w = Walking p \/ (itemch w = Exited /\ exists a, p = Ret a)))
      \/ (ok w = true /\ exists k, itemch w = Receiving k /\ k (ret_ w) = p)).

Section ProofNotions.
Variable Clean : string -> string.
Variable Separator : ascii.
Variable skip : nat -> item -> bool.
Variable j : nat.

Abbreviation sw := (spec_walk Clean Separator (skip_at j)).
Abbreviation walk := (walk Clean Separator).
Abbreviation spec_walk := (spec_walk Clean Separator skip).
Abbreviation filepath_Join := (filepath_Join Clean Separator).
Abbreviation pre := (preorder Clean Separator).

(** What [filepath.Walk] and the loop of [filepath.walk] both do with a
    name: [Lstat] it, then call the callback on a failure and [walk]
    otherwise. *)
Definition visit (n : node) (p : string) : walkM (option error) :=
  match lstat n with
  | (fi, Some e) => walkFn p fi (Some e)
  | (_, None) => walk n p
  end.

(** Visiting [n] makes the calls the specification's traversal lists and
    returns what the caller answered for [n] itself. *)
Definition visit_ok (n : node) : Prop :=
  forall p i,
    replay skip (visit n p) i = (spec_walk n i p, reply skip i (entry_of p n)).

(** The children of a directory at [p], in the order of the walk. *)
Definition below (f : node -> string -> list item) (p : string) (cs : list node)
  : list item :=
  flat_map (fun c => f c (filepath_Join [p; node_name c])) cs.

(** [l] without the [size - 1] entries that follow its entry number [k]. *)
Definition cut (k size : nat) (l : list item) : list item :=
  (firstn (S k) l ++ skipn (k + size) l)%list.

(** For a node whose entries are numbered from [i]: the traversal is the
    plain listing when [j] is not among its numbers, and the listing
    without the subtree below entry [j] when it is. *)
Definition skip_ok (n : node) : Prop :=
  forall i p,
    ((j < i \/ i + reachable_count n <= j) -> sw n i p = pre n p)
    /\ (forall k c,
           j = i + k -> nth_error (visited n) k = Some c ->
           k + reachable_count c <= reachable_count n
           /\ sw n i p = cut k (reachable_count c) (pre n p)).

(** The entries of a node of the walk and of all below it stand together
    in the listing, from the node's own number on. *)
Definition block_ok (n : node) : Prop :=
  forall p k c,
    nth_error (visited n) k = Some c ->
    exists p', firstn (reachable_count c) (skipn k (pre n p)) = pre c p'.
End ProofNotions.


(** The shape of what [Clean] keeps: under a rooted path only names, else
    some ".." first (deepest in the list) and names after them. *)
Fixpoint kept (rooted : bool) (out : list string) : bool :=
  match out with
  | [] => true
  | e :: out' =>
      no_slash e && negb (e =? "") && negb (e =? ".")
      && (if e =? ".." then negb rooted && forallb (String.eqb "..") out' else true)
      && kept rooted out'
  end.

(** A program of the goroutine that gives up as soon as a callback returns
    the error of [Stop]. *)
Fixpoint aborts (p : walkM (option error)) : Prop :=
  match p with
  | Ret _ => True
  | Call _ _ _ k => k (Some ErrStop) = Ret (Some ErrStop) /\ forall r, aborts (k r)
  end.

(** The states of a Walker on which [Stop] was never called. *)
Definition unstopped (w : Walker) : Prop :=
  retch w = None
  /\ ((ok w = false
       /\ ((exists p, itemch w = Walking p /\ aborts p) \/ itemch w = Exited))
      \/ (ok w = true
          /\ exists k, itemch w = Receiving k
                       /\ k (Some ErrStop) = Ret (Some ErrStop)
                       /\ forall r, aborts (k r))).

(** The states between a [Stop] on an entry and the next [Step]. *)
Definition stopping (w : Walker) : Prop :=
  ok w = true
  /\ ((retch w = Some (Some ErrStop)
       /\ exists k, itemch w = Receiving k /\ k (Some ErrStop) = Ret (Some ErrStop))
      \/ (retch w = None
          /\ (itemch w = Walking (Ret (Some ErrStop)) \/ itemch w = Exited))).

(** The one call the lemmas about [Stop] count. *)
Definition is_CStop (c : call) : bool :=
  match c with CStop => true | _ => false end.

(** The Walker between two calls of a caller who never called [Stop]: the
    goroutine stands at its first send, or in [recv] waiting for the answer
    to the entry the Walker holds, or it is gone after the last entry; and
    [retch] is empty. *)
Definition at_rest (w : Walker) : Prop :=
  retch w = None
  /\ match itemch w with
     | Walking (Call _ _ _ _) => ok w = false
     | Walking (Ret _) => False
     | Receiving _ => ok w = true
     | Exited => ok w = false
     end.

(** A program of the goroutine whose every call of the callback passes
    metadata or an error. *)
Fixpoint honest (p : walkM (option error)) : Prop :=
  match p with
  | Ret _ => True
  | Call _ inf er k => (inf = None -> er <> None) /\ forall r, honest (k r)
  end.

Definition is_CSkipDir (c : call) : bool :=
  match c with CSkipDir => true | _ => false end.

Definition is_CStep (c : call) : bool :=
  match c with CStep => true | _ => false end.

(* ===================================================================== *)
(** * Part II: lemmas and theorems                                        *)
(* ===================================================================== *)

(** ** Join *)

Section JoinFacts.
Variable Clean : string -> string.

Abbreviation Join_suffix := (Join_suffix Clean).

Lemma skipn_tail {A : Type} (l : list A) :
  forall i x r, skipn i l = x :: r -> skipn (S i) l = r.
Proof.
  induction l as [|y l IH]; intros [|i] x r H; simpl in *; try discriminate.
  - now inversion H.
  - destruct l; [destruct i; discriminate|]. now apply IH with (x := x).
Qed.

Lemma Join_range_suffix sep elem :
  forall rest i, skipn i elem = rest ->
                 Join_range Clean sep elem i rest = Join_suffix sep rest.
Proof.
  induction rest as [|e rest IH]; intros i H; simpl; [reflexivity|].
  destruct (e =? ""); simpl.
  - apply IH. now apply skipn_tail with (x := e).
  - now rewrite H.
Qed.

Lemma Join_unfold fs elem :
  Join Clean fs elem = Join_suffix (string_of_byte (PathSeparator fs)) elem.
Proof. unfold Join. now apply Join_range_suffix. Qed.

(** C9: [Join] returns the empty string when every element is empty (the
    empty list included), and an empty first element never changes the
    result: [Join(fs, "", elem...) = Join(fs, elem...)]. *)
Theorem Join_ignores_empty (fs : FileSystem) (elem : list string) :
  (Forall (fun e => e = "") elem -> Join Clean fs elem = "")
  /\ Join Clean fs ("" :: elem) = Join Clean fs elem.
Proof.
  rewrite !Join_unfold. split; [|reflexivity].
  induction 1 as [|e l He _ IH]; simpl; [reflexivity|].
  subst e. exact IH.
Qed.
End JoinFacts.

Lemma Join_ignores_empty_witness :
  Join unix_Clean unix_fs [""; ""; ""] = "".
Proof.
  apply (proj1 (Join_ignores_empty unix_Clean unix_fs [""; ""; ""])).
  repeat constructor.
Defined.

(** ** The accessors and the two control calls *)

(** C10: on a Walker just made by [Walk], before any [Step], [Path] returns
    the empty string, [Stat] a nil [FileInfo] and [Err] a nil error. *)
Theorem fresh_Walker_accessors (Clean : string -> string) (Separator : ascii)
        (root : string) (n : node) :
  let w := Walk Clean Separator root n in
  Path w = Done "" w /\ Stat w = Done None w /\ Err w = Done None w.
Proof. repeat split. Qed.

(** [SkipDir] where it does nothing: before the first [Step] and after the
    last ([ok] false), and on an entry whose metadata says "not a directory". *)
Lemma SkipDir_not_ok w : ok w = false -> SkipDir w = Done tt w.
Proof. intros H. run. now rewrite H. Qed.

Lemma SkipDir_on_file w fi :
  ok w = true -> info (cur w) = Some fi -> IsDir fi = false -> SkipDir w = Done tt w.
Proof. intros H1 H2 H3. run. rewrite H1. cbn. rewrite H2. cbn. now rewrite H3. Qed.

Lemma SkipDir_on_dir w fi :
  ok w = true -> info (cur w) = Some fi -> IsDir fi = true ->
  SkipDir w = Done tt (set_ret (Some filepath_SkipDir) w).
Proof. intros H1 H2 H3. run. rewrite H1. cbn. rewrite H2. cbn. now rewrite H3. Qed.

Lemma SkipDir_no_info w :
  ok w = true -> info (cur w) = None -> SkipDir w = Panic.
Proof. intros H1 H2. run. rewrite H1. cbn. now rewrite H2. Qed.

(** The first [Step] of any walk delivers the root. *)
Lemma filepath_Walk_first Clean Separator root n :
  exists k, filepath_Walk Clean Separator root n
            = Call root (fst (lstat n)) (err (entry_of root n)) k.
Proof.
  unfold filepath_Walk. destruct n as [s e|s|s rd ents]; cbn; eauto.
Qed.

Lemma bind_run {A B : Type} (c : M A) (f : A -> M B) (w : Walker) :
  bind c f w = match c w with
               | Done a w' => f a w'
               | Blocked => Blocked
               | Panic => Panic
               end.
Proof. reflexivity. Qed.

(** [Step] case by case, by where the goroutine stands. *)
Lemma Step_at_send w p i e k :
  ok w = false -> itemch w = Walking (Call p i e k) ->
  Step w = Done true (mkWalker (Receiving k) (mkItem p i e) true (retch w) None).
Proof. destruct w; cbn; intros -> ->. reflexivity. Qed.

Lemma Step_at_close w a :
  ok w = false -> itemch w = Walking (Ret a) ->
  Step w = Done false (mkWalker Exited zero_item false (retch w) None).
Proof. destruct w; cbn; intros -> ->. reflexivity. Qed.

Lemma Step_closed w :
  ok w = false -> itemch w = Exited ->
  Step w = Done false (mkWalker Exited zero_item false (retch w) None).
Proof. destruct w; cbn; intros -> ->. reflexivity. Qed.

Lemma Step_resume_send w k p i e k' :
  ok w = true -> retch w = None -> itemch w = Receiving k ->
  k (ret_ w) = Call p i e k' ->
  Step w = Done true (mkWalker (Receiving k') (mkItem p i e) true None None).
Proof.
  destruct w; cbn; intros -> -> -> H. unfold Step. cbn. unfold M_bind. cbn.
  rewrite H. reflexivity.
Qed.

Lemma Step_resume_close w k a :
  ok w = true -> retch w = None -> itemch w = Receiving k ->
  k (ret_ w) = Ret a ->
  Step w = Done false (mkWalker Exited zero_item false None None).
Proof.
  destruct w; cbn; intros -> -> -> H. unfold Step. cbn. unfold M_bind. cbn.
  rewrite H. reflexivity.
Qed.

Lemma first_Step Clean Separator root n :
  exists k,
    Step (Walk Clean Separator root n)
    = Done true (mkWalker (Receiving k) (entry_of root n) true None None).
Proof.
  destruct (filepath_Walk_first Clean Separator root n) as [k Hk].
  exists k.
  rewrite (Step_at_send (Walk Clean Separator root n) _ _ _ k eq_refl (f_equal Walking Hk)).
  destruct n; reflexivity.
Qed.

(** C5, at the input where the code fails: when [os.Lstat] fails for the
    root, the first [Step] delivers an entry with an error and a nil
    [FileInfo], and [SkipDir] on it panics in [w.cur.info.IsDir()]. *)
Theorem SkipDir_panics_without_metadata (Clean : string -> string)
        (Separator : ascii) (root name : string) (e : error) :
  (Step ;; SkipDir) (Walk Clean Separator root (Gone name e)) = Panic.
Proof.
  destruct (first_Step Clean Separator root (Gone name e)) as [k Hk].
  rewrite bind_run, Hk. reflexivity.
Qed.

(** C2, at the input where the code fails: [Stop] before the first [Step]
    does not keep that [Step] from delivering the root and returning true. *)
Theorem Stop_before_first_Step (Clean : string -> string) (Separator : ascii)
        (root : string) (n : node) :
  exists w, (Stop ;; Step) (Walk Clean Separator root n) = Done true w
            /\ cur w = entry_of root n.
Proof.
  destruct (filepath_Walk_first Clean Separator root n) as [k Hk].
  eexists. rewrite bind_run. cbn [Stop try_send_retch Walk retch].
  rewrite (Step_at_send
             (set_retch (Some (Some ErrStop)) (Walk Clean Separator root n))
             _ _ _ k eq_refl (f_equal Walking Hk)).
  split; [reflexivity|]. destruct n; reflexivity.
Qed.

(** ** After the walk has ended *)

(** A [Step] that returns false leaves the channel closed, [ok] false and
    the zero [item] in [cur]. *)
Lemma Step_false_inv w w' :
  Step w = Done false w' ->
  ok w' = false /\ itemch w' = Exited /\ cur w' = zero_item.
Proof.
  destruct w as [g c o r rt]. unfold Step. cbn. unfold M_bind. cbn.
  destruct o; cbn.
  - destruct r as [v|]; cbn.
    + destruct g as [p|k|]; cbn; try discriminate.
      destruct (k v) as [a|p i e k']; cbn; try discriminate.
      intros H; inversion H; auto.
    + destruct g as [p|k|]; cbn.
      * destruct p; cbn; try discriminate. intros H; inversion H; auto.
      * destruct (k rt) as [a|p i e k']; cbn; try discriminate.
        intros H; inversion H; auto.
      * intros H; inversion H; auto.
  - destruct g as [p|k|]; cbn.
    + destruct p; cbn; try discriminate. intros H; inversion H; auto.
    + destruct r as [v|]; cbn; try discriminate.
      destruct (k v) as [a|p i e k']; cbn; try discriminate.
      intros H; inversion H; auto.
    + intros H; inversion H; auto.
Qed.

Lemma ended_Step w :
  ended w -> exists w', Step w = Done false w' /\ ended w'.
Proof.
  intros (H1 & H2 & H3). rewrite (Step_closed w H1 H2).
  eexists; split; [reflexivity|]. repeat split.
Qed.

Lemma ended_do_call c w :
  ended w -> exists w', do_call c w = Done tt w' /\ ended w'.
Proof.
  intros H. destruct c; cbn [do_call].
  - destruct (ended_Step w H) as (w' & Hs & He).
    exists w'. rewrite bind_run, Hs. auto.
  - destruct H as (H1 & H2 & H3). rewrite (SkipDir_not_ok w H1).
    exists w. repeat split; assumption.
  - destruct H as (H1 & H2 & H3). destruct w as [g c o r rt]; cbn in *; subst.
    destruct r; eexists; (split; [reflexivity|]); repeat split.
  - destruct H as (H1 & H2 & H3). destruct w as [g c o r rt]; cbn in *; subst.
    eexists; split; [reflexivity|]. repeat split.
Qed.

Lemma ended_do_calls cs :
  forall w, ended w -> exists w', do_calls cs w = Done tt w' /\ ended w'.
Proof.
  induction cs as [|c cs IH]; intros w H; cbn [do_calls].
  - exists w. split; [reflexivity | assumption].
  - destruct (ended_do_call c w H) as (w1 & H1 & E1).
    destruct (IH w1 E1) as (w2 & H2 & E2).
    exists w2. rewrite bind_run, H1. destruct H2. split; [reflexivity|assumption].
Qed.

(** C4: once a [Step] has returned false, whatever the caller does next
    returns, and every [Step] after it returns false again. *)
Theorem Step_false_is_final (w w1 : Walker) (cs : list call) :
  Step w = Done false w1 ->
  exists w2, do_calls cs w1 = Done tt w2
             /\ exists w3, Step w2 = Done false w3.
Proof.
  intros H. apply Step_false_inv in H.
  destruct (ended_do_calls cs w1 H) as (w2 & H2 & E2).
  destruct (ended_Step w2 E2) as (w3 & H3 & _).
  exists w2. split; [assumption|]. exists w3. assumption.
Qed.

Lemma Step_false_is_final_witness :
  let w0 := Walk unix_Clean slash "f" (File "f") in
  let w := state_after (Step w0) w0 in
  let w1 := state_after (Step w) w in
  Step w = Done false w1
  /\ exists w2, do_calls [CStop; CStep; CSkipDir; CYield; CStep] w1 = Done tt w2
                /\ exists w3, Step w2 = Done false w3.
Proof.
  intros w0 w w1. split; [reflexivity|].
  apply (Step_false_is_final w w1). reflexivity.
Defined.

(** C6, as the code has it: after a [Step] that returned false, and after
    whatever the caller does next, [Path], [Stat] and [Err] return the zero
    values (the empty path, a nil [FileInfo], a nil error), not those of the
    last entry delivered: the receive [w.cur, w.ok = <-w.itemch] on the
    closed channel overwrites [w.cur]. *)
Theorem accessors_zero_after_end (w w1 w2 : Walker) (cs : list call) :
  Step w = Done false w1 ->
  do_calls cs w1 = Done tt w2 ->
  Path w2 = Done "" w2 /\ Stat w2 = Done None w2 /\ Err w2 = Done None w2.
Proof.
  intros H H2. apply Step_false_inv in H.
  destruct (ended_do_calls cs w1 H) as (w2' & H2' & (_ & _ & E)).
  rewrite H2 in H2'. inversion H2'; subst w2'.
  unfold Path, Stat, Err, gets. rewrite E. repeat split.
Qed.

Lemma accessors_zero_after_end_witness :
  let w0 := Walk unix_Clean slash "d" (Dir "d" None [File "b"]) in
  let w := state_after ((Step ;; Step) w0) w0 in
  let w1 := state_after (Step w) w in
  let w2 := state_after (do_calls [CSkipDir; CStep] w1) w1 in
  result (Path w) = Some "d/b"
  /\ Path w2 = Done "" w2 /\ Stat w2 = Done None w2 /\ Err w2 = Done None w2.
Proof.
  intros w0 w w1 w2. split; [reflexivity|].
  apply (accessors_zero_after_end w w1 w2 [CSkipDir; CStep]); reflexivity.
Defined.

(** C6 as the claim words it fails: on the one-file tree "d" the walk
    delivers "d", the next [Step] returns false, and [Path] then returns
    the empty string and no longer "d". *)
Lemma accessors_not_kept_after_end :
  let w0 := Walk unix_Clean slash "d" (File "d") in
  exists w1 w2,
    Step w0 = Done true w1 /\ Step w1 = Done false w2
    /\ result (Path w1) = Some "d"
    /\ result (Path w2) <> result (Path w1).
Proof.
  intros w0. do 2 eexists. split; [reflexivity|]. split; [reflexivity|].
  split; [reflexivity|]. cbn. discriminate.
Qed.

(** ** What the calls other than Step leave alone *)

(** Each single call of [SkipDir], [Stop], [Path], [Stat] and [Err] returns
    without waiting on a channel and leaves [cur] and [ok] as they are, in
    every state of the Walker; the accessors change nothing at all.  This
    is said of one call: what a second [Stop] does to the next [Step] is
    shown further down. *)
Lemma only_Step_blocks_or_moves (w : Walker) :
  (exists w', Stop w = Done tt w' /\ cur w' = cur w /\ ok w' = ok w)
  /\ match SkipDir w with
     | Done _ w' => cur w' = cur w /\ ok w' = ok w
     | Blocked => False
     | Panic => True
     end
  /\ Path w = Done (path (cur w)) w
  /\ Stat w = Done (info (cur w)) w
  /\ Err w = Done (err (cur w)) w.
Proof.
  split; [|split; [|repeat split]].
  - destruct w as [g c o r rt]. destruct r; eexists; (split; [reflexivity|]); auto.
  - destruct w as [g c o r rt]. destruct o; cbn; [|auto].
    destruct (info c) as [fi|]; cbn; [|exact I].
    destruct (IsDir fi); cbn; auto.
Qed.

(** [Step] does wait: a second [Stop], posted after the goroutine has taken
    the first one and gone, fills [retch] for good, and the next [Step]
    never gets past [w.retch <- w.ret]. *)
Lemma Step_blocks_after_second_Stop :
  let w0 := Walk unix_Clean slash "d" (Dir "d" None [File "b"]) in
  exists w, do_calls [CStep; CStop; CYield; CYield; CStop] w0 = Done tt w
            /\ Step w = Blocked.
Proof. intros w0. eexists. split; reflexivity. Qed.

(** ** The sort *)

Section SortFacts.
Context {A : Type} (key : A -> string).

Abbreviation key_le := (key_le key).

Lemma insert_by_perm x l : Permutation (x :: l) (insert_by key x l).
Proof.
  induction l as [|y l IH]; cbn; [reflexivity|].
  destruct (String.leb (key x) (key y)); [reflexivity|].
  rewrite perm_swap. now constructor.
Qed.

Lemma sort_by_perm l : Permutation l (sort_by key l).
Proof.
  induction l as [|x l IH]; cbn; [constructor|].
  rewrite <- insert_by_perm. now constructor.
Qed.

Lemma sort_by_In l x : In x (sort_by key l) <-> In x l.
Proof.
  split; apply Permutation_in; [symmetry|]; apply sort_by_perm.
Qed.

Lemma insert_by_sorted x l :
  LocallySorted key_le l -> LocallySorted key_le (insert_by key x l).
Proof.
  induction 1 as [|y|y z l Hs IH Hyz]; cbn.
  - constructor.
  - destruct (String.leb (key x) (key y)) eqn:E.
    + constructor; [constructor | exact E].
    + constructor; [constructor|].
      destruct (String.leb_total (key x) (key y)) as [H|H]; [congruence | exact H].
  - destruct (String.leb (key x) (key y)) eqn:E.
    + constructor; [constructor; assumption | exact E].
    + cbn in IH. destruct (String.leb (key x) (key z)) eqn:E'.
      * constructor; [constructor; [assumption | exact E']|].
        destruct (String.leb_total (key x) (key y)) as [H|H]; [congruence | exact H].
      * constructor; assumption.
Qed.

(** The sorted list is in lexical order of the keys. *)
Lemma sort_by_sorted l : LocallySorted key_le (sort_by key l).
Proof.
  induction l as [|x l IH]; cbn; [constructor|]. now apply insert_by_sorted.
Qed.
End SortFacts.

(** Sorting entries that carry their node along sorts the nodes. *)
Lemma sort_by_map {A B : Type} (key : A -> string) (f : A -> B) (l : list A) :
  sort_by fst (map (fun c => (key c, f c)) l)
  = map (fun c => (key c, f c)) (sort_by key l).
Proof.
  unfold sort_by. induction l as [|x l IH]; cbn [map fold_right]; [reflexivity|].
  rewrite IH. generalize (fold_right (insert_by key) [] l) as s. clear.
  induction s as [|y s IH]; cbn; [reflexivity|].
  destruct (String.leb (key x) (key y)); cbn; [reflexivity|]. now rewrite IH.
Qed.

(** ** Induction on file trees *)

Lemma node_induction (P : node -> Prop) :
  (forall s e, P (Gone s e)) ->
  (forall s, P (File s)) ->
  (forall s rd ents, Forall P ents -> P (Dir s rd ents)) ->
  forall n, P n.
Proof.
  intros HG HF HD. fix IH 1. intros [s e|s|s rd ents]; [apply HG | apply HF |].
  apply HD. induction ents as [|c ents IHe]; constructor; [apply IH | exact IHe].
Qed.

(** ** The caller's loop against the goroutine's program *)

Lemma background_loop_state w p :
  loop_state w p ->
  loop_state (background w) p
  /\ cur (background w) = cur w /\ ok (background w) = ok w
  /\ ret_ (background w) = ret_ w.
Proof.
  destruct w as [g c o r rt]. unfold loop_state. cbn.
  intros (-> & [(-> & [-> | (-> & a & ->)]) | (-> & k & -> & <-)]); cbn.
  - destruct p; cbn; repeat split; auto; left; split; eauto.
  - repeat split; auto; left; split; eauto.
  - repeat split; auto; right; split; eauto.
Qed.

Lemma yield_loop_state n w p :
  loop_state w p ->
  exists w', yield n w = Done tt w' /\ loop_state w' p
             /\ cur w' = cur w /\ ok w' = ok w /\ ret_ w' = ret_ w.
Proof.
  intros H. exists (Nat.iter n background w). split; [reflexivity|].
  induction n as [|n IH]; [cbn; auto|].
  change (Nat.iter (S n) background w) with (background (Nat.iter n background w)).
  destruct IH as (L & Hc & Ho & Hr).
  destruct (background_loop_state _ p L) as (L' & Hc' & Ho' & Hr').
  split; [exact L'|]. repeat split; congruence.
Qed.

Lemma Step_loop_Ret w a :
  loop_state w (Ret a) -> exists w', Step w = Done false w' /\ ended w'.
Proof.
  intros (Hr & [(Ho & [Hi | (Hi & _)]) | (Ho & k & Hi & Hk)]).
  - rewrite (Step_at_close w a Ho Hi). eexists; split; [reflexivity|]. repeat split.
  - rewrite (Step_closed w Ho Hi). eexists; split; [reflexivity|]. repeat split.
  - rewrite (Step_resume_close w k a Ho Hr Hi Hk).
    eexists; split; [reflexivity|]. repeat split.
Qed.

Lemma Step_loop_Call w pa inf er k :
  loop_state w (Call pa inf er k) ->
  Step w = Done true (mkWalker (Receiving k) (mkItem pa inf er) true None None).
Proof.
  intros (Hr & [(Ho & [Hi | (Hi & a & Ha)]) | (Ho & k0 & Hi & Hk)]).
  - rewrite (Step_at_send w _ _ _ _ Ho Hi). now rewrite Hr.
  - discriminate.
  - exact (Step_resume_send w k0 _ _ _ _ Ho Hr Hi Hk).
Qed.

Lemma yield_waiting n w k :
  itemch w = Receiving k -> retch w = None -> yield n w = Done tt w.
Proof.
  intros Hi Hr. unfold yield, modify. f_equal.
  induction n as [|n IH]; [reflexivity|].
  change (Nat.iter (S n) background w) with (background (Nat.iter n background w)).
  rewrite IH. unfold background. now rewrite Hi, Hr.
Qed.

(** The loop delivers exactly the calls the goroutine's program makes, then
    ends, whatever the schedule. *)
Lemma drain_replay skip sched :
  (forall i it, skip i it = true -> info it <> None) ->
  forall p i w fuel,
    loop_state w p ->
    length (fst (replay skip p i)) < fuel ->
    exists w', drain skip sched fuel i w = Done (Some (fst (replay skip p i))) w'
               /\ ended w'.
Proof.
  intros Hskip. induction p as [a|pa inf er k IH]; intros i w fuel L Hf;
    (destruct fuel as [|fuel]; [inversion Hf|]); cbn [drain];
    rewrite bind_run;
    destruct (yield_loop_state (sched (2 * i)) w _ L) as (w1 & -> & L1 & _).
  - destruct (Step_loop_Ret w1 a L1) as (w2 & Hs & E).
    rewrite bind_run, Hs. exists w2. split; [reflexivity | exact E].
  - rewrite bind_run, (Step_loop_Call w1 _ _ _ _ L1). cbv beta iota.
    set (it := mkItem pa inf er).
    set (w2 := mkWalker (Receiving k) it true None None).
    rewrite bind_run. change (entry w2) with (Done it w2). cbv beta iota.
    rewrite bind_run, (yield_waiting _ w2 k eq_refl eq_refl). cbv beta iota.
    cbn [replay fst length] in Hf. apply Nat.succ_lt_mono in Hf.
    assert (Hnext : exists w3, (if skip i it then SkipDir else ret tt) w2 = Done tt w3
                               /\ loop_state w3 (k (reply skip i it))).
    { unfold reply. destruct (skip i it) eqn:Es; cbn [andb].
      - specialize (Hskip i it Es). unfold is_dir_entry.
        destruct (info it) as [fi|] eqn:Ei; [|congruence].
        destruct (IsDir fi) eqn:Ed.
        + rewrite (SkipDir_on_dir w2 fi eq_refl Ei Ed).
          eexists; split; [reflexivity|]. split; [reflexivity|].
          right. split; [reflexivity|]. exists k. split; reflexivity.
        + rewrite (SkipDir_on_file w2 fi eq_refl Ei Ed).
          eexists; split; [reflexivity|]. split; [reflexivity|].
          right. split; [reflexivity|]. exists k. split; reflexivity.
      - eexists; split; [reflexivity|]. split; [reflexivity|].
        right. split; [reflexivity|]. exists k. split; reflexivity. }
    destruct Hnext as (w3 & Hn & L3).
    rewrite bind_run, Hn. cbv beta iota.
    destruct (IH (reply skip i it) (S i) w3 fuel L3 Hf) as (w4 & Hd & E).
    rewrite bind_run, Hd. exists w4. split; [reflexivity | exact E].
Qed.

(** ** The program of filepath.Walk against the specification's traversal *)

Lemma replay_bind {A B : Type} skip (p : walkM A) (f : A -> walkM B) :
  forall i,
    replay skip (bind p f) i
    = ((fst (replay skip p i)
          ++ fst (replay skip (f (snd (replay skip p i)))
                         (i + length (fst (replay skip p i)))))%list,
       snd (replay skip (f (snd (replay skip p i)))
                   (i + length (fst (replay skip p i))))).
Proof.
  induction p as [a|pa inf er k IH]; intros i.
  - cbn. rewrite Nat.add_0_r. now destruct (replay skip (f a) i).
  - cbn [bind Monad_walkM walkM_bind replay fst snd length].
    change (walkM_bind (k ?r) f) with (bind (k r) f). rewrite IH.
    cbn [fst snd app]. now rewrite Nat.add_succ_r.
Qed.

Section WalkFacts.
Variable Clean : string -> string.
Variable Separator : ascii.
Variable skip : nat -> item -> bool.

Abbreviation walk := (walk Clean Separator).
Abbreviation walk_range := (walk_range Clean Separator).
Abbreviation spec_walk := (spec_walk Clean Separator skip).
Abbreviation spec_children := (spec_children Clean Separator).
Abbreviation filepath_Join := (filepath_Join Clean Separator).
Abbreviation visit := (visit Clean Separator).
Abbreviation visit_ok := (visit_ok Clean Separator skip).

Lemma reply_no_dir i it : is_dir_entry it = false -> reply skip i it = None.
Proof. unfold reply. intros ->. now rewrite andb_false_r. Qed.

Lemma reply_cases i it :
  reply skip i it = None
  \/ (reply skip i it = Some filepath_SkipDir /\ is_dir_entry it = true).
Proof.
  unfold reply. destruct (skip i it); cbn; auto.
  destruct (is_dir_entry it); auto.
Qed.

Lemma walk_range_replay (p : string) (cs : list node) :
  Forall visit_ok cs ->
  forall i,
    replay skip (walk_range p (map (fun c => (node_name c, (c, walk c))) cs)) i
    = (spec_children p i (map (fun c => (node_name c, spec_walk c)) cs), None).
Proof.
  induction 1 as [|c cs Hc _ IH]; intros i; [reflexivity|].
  cbn [map walk_range spec_children].
  set (filename := filepath_Join [p; node_name c]).
  specialize (Hc filename i). unfold visit in Hc.
  destruct c as [s e|s|s rd ents]; cbn [lstat] in *.
  - rewrite replay_bind, Hc. cbn [fst snd].
    rewrite (reply_no_dir i (entry_of filename (Gone s e)) eq_refl).
    cbn [is_nil negb andb]. rewrite IH. reflexivity.
  - rewrite replay_bind, Hc. cbn [fst snd].
    rewrite (reply_no_dir i (entry_of filename (File s)) eq_refl).
    cbn [is_nil negb andb]. rewrite IH. reflexivity.
  - rewrite replay_bind, Hc. cbn [fst snd IsDir negb orb].
    destruct (reply_cases i (entry_of filename (Dir s rd ents))) as [-> | [-> _]];
      cbn [is_nil is_SkipDir negb andb]; rewrite IH; reflexivity.
Qed.

Lemma visit_replay : forall n, visit_ok n.
Proof.
  induction n as [s e|s|s rd ents IH] using node_induction; intros p i.
  - reflexivity.
  - reflexivity.
  - unfold visit. cbn [lstat walk spec_walk fst].
    rewrite replay_bind. cbn [walkFn replay fst snd length entry_of].
    set (it := mkItem p (Some (mkFileInfo s true)) rd).
    destruct rd as [e|].
    + reflexivity.
    + assert (Hr : reply skip i it
                   = if skip i it then Some filepath_SkipDir else None).
      { unfold reply. change (is_dir_entry it) with true.
        now rewrite andb_true_r. }
      rewrite !Hr. destruct (skip i it) eqn:Es.
      * reflexivity.
      * cbn [is_nil negb orb].
        rewrite !sort_by_map, walk_range_replay.
        -- cbn [fst snd app]. now rewrite Nat.add_1_r.
        -- apply Forall_forall. intros c Hin.
           rewrite Forall_forall in IH. apply IH.
           now apply (sort_by_In node_name).
Qed.

(** The calls [filepath.Walk] makes are the specification's traversal. *)
Lemma filepath_Walk_replay root n :
  fst (replay skip (filepath_Walk Clean Separator root n) 0) = spec_walk n 0 root.
Proof.
  unfold filepath_Walk. rewrite replay_bind.
  assert (H := visit_replay n root 0). unfold visit in H.
  destruct n as [s e|s|s rd ents]; cbn [lstat] in *; rewrite H; cbn [fst snd];
    match goal with
    | |- context [is_SkipDir ?r] => destruct (is_SkipDir r)
    end; cbn [replay ret Monad_walkM fst snd]; apply app_nil_r.
Qed.

(** The loop over a fresh Walker delivers the specification's traversal
    and then ends. *)
Lemma drain_spec_walk sched root n fuel :
  (forall i it, skip i it = true -> info it <> None) ->
  length (spec_walk n 0 root) < fuel ->
  exists w', drain skip sched fuel 0 (Walk Clean Separator root n)
             = Done (Some (spec_walk n 0 root)) w'
             /\ ended w'.
Proof.
  intros Hskip Hf. rewrite <- filepath_Walk_replay in *.
  apply drain_replay; [exact Hskip | | exact Hf].
  split; [reflexivity|]. left. split; [reflexivity|]. now left.
Qed.
End WalkFacts.

(** ** The plain pre-order listing *)

Lemma sort_by_map_key {A B : Type} (key : A -> string) (key' : B -> string)
      (f : A -> B) (l : list A) :
  (forall x, key' (f x) = key x) ->
  sort_by key' (map f l) = map f (sort_by key l).
Proof.
  intros Hk. unfold sort_by.
  induction l as [|x l IH]; cbn [map fold_right]; [reflexivity|].
  rewrite IH. generalize (fold_right (insert_by key) [] l) as s. clear IH.
  induction s as [|y s IH]; cbn; [reflexivity|].
  rewrite !Hk. destruct (String.leb (key x) (key y)); cbn; [reflexivity|].
  now rewrite IH.
Qed.

Lemma list_sum_cons (x : nat) (l : list nat) : list_sum (x :: l) = x + list_sum l.
Proof. reflexivity. Qed.

Lemma list_sum_perm (l l' : list nat) :
  Permutation l l' -> list_sum l = list_sum l'.
Proof. unfold list_sum. induction 1; cbn [fold_right] in *; lia. Qed.

Section PreorderFacts.
Variable Clean : string -> string.
Variable Separator : ascii.

Abbreviation pre := (preorder Clean Separator).
Abbreviation filepath_Join := (filepath_Join Clean Separator).
Abbreviation below := (below Clean Separator).

Lemma preorder_Dir s ents p :
  pre (Dir s None ents) p
  = entry_of p (Dir s None ents) :: below pre p (sort_by node_name ents).
Proof.
  cbn [preorder]. f_equal. rewrite sort_by_map.
  unfold below. rewrite flat_map_concat_map, map_map.
  now rewrite <- flat_map_concat_map.
Qed.

Lemma preorder_leaf n p :
  match n with Dir _ None _ => False | _ => True end ->
  pre n p = [entry_of p n].
Proof. destruct n as [s e|s|s [e|] ents]; cbn; intros H; now try destruct H. Qed.

(** Without [SkipDir] the specification's traversal is the pre-order
    listing. *)
Lemma spec_walk_never n :
  forall i p, spec_walk Clean Separator never n i p = pre n p.
Proof.
  induction n as [s e|s|s rd ents IH] using node_induction; intros i p;
    try reflexivity.
  destruct rd as [e|]; [reflexivity|].
  rewrite preorder_Dir. cbn [spec_walk never]. f_equal.
  rewrite sort_by_map.
  assert (Hs : Forall (fun c => forall i p,
                spec_walk Clean Separator never c i p = pre c p)
                      (sort_by node_name ents)).
  { apply Forall_forall. intros c Hin. rewrite Forall_forall in IH.
    apply IH. now apply (sort_by_In node_name). }
  generalize (S i) as j. induction Hs as [|c cs Hc _ IHcs]; intros j;
    [reflexivity|].
  cbn [map spec_children]. unfold below. cbn [flat_map].
  rewrite Hc. f_equal. apply IHcs.
Qed.

Lemma preorder_length n : forall p, length (pre n p) = reachable_count n.
Proof.
  induction n as [s e|s|s rd ents IH] using node_induction; intros p;
    try reflexivity.
  destruct rd as [e|]; [reflexivity|].
  rewrite preorder_Dir. cbn [length reachable_count]. f_equal.
  rewrite (list_sum_perm _ _ (Permutation_map reachable_count
                                (sort_by_perm node_name ents))).
  assert (Hs : Forall (fun c => forall p, length (pre c p) = reachable_count c)
                      (sort_by node_name ents)).
  { apply Forall_forall. intros c Hin. rewrite Forall_forall in IH.
    apply IH. now apply (sort_by_In node_name). }
  unfold below. induction Hs as [|c cs Hc _ IHcs]; [reflexivity|].
  cbn [flat_map map]. rewrite list_sum_cons, length_app, Hc, IHcs. reflexivity.
Qed.

(** Nothing below a directory whose listing fails is part of the listing. *)
Lemma node_name_prune c : node_name (prune_unreadable c) = node_name c.
Proof. destruct c as [s e|s|s [e|] ents]; reflexivity. Qed.

Lemma preorder_prune n :
  forall p, pre (prune_unreadable n) p = pre n p.
Proof.
  induction n as [s e|s|s rd ents IH] using node_induction; intros p;
    try reflexivity.
  destruct rd as [e|]; [reflexivity|].
  cbn [prune_unreadable]. rewrite !preorder_Dir. f_equal.
  rewrite (sort_by_map_key node_name node_name prune_unreadable ents
                           node_name_prune).
  assert (Hs : Forall (fun c => forall p,
                pre (prune_unreadable c) p = pre c p)
                      (sort_by node_name ents)).
  { apply Forall_forall. intros c Hin. rewrite Forall_forall in IH.
    apply IH. now apply (sort_by_In node_name). }
  unfold below. induction Hs as [|c cs Hc _ IHcs]; [reflexivity|].
  cbn [map flat_map]. now rewrite node_name_prune, Hc, IHcs.
Qed.
End PreorderFacts.

Lemma reachable_count_prune n :
  node_count (prune_unreadable n) = reachable_count n.
Proof.
  induction n as [s e|s|s rd ents IH] using node_induction; try reflexivity.
  destruct rd as [e|]; [reflexivity|].
  cbn [prune_unreadable node_count reachable_count]. f_equal.
  rewrite map_map. induction IH as [|c cs Hc _ IHcs]; [reflexivity|].
  cbn [map]. now rewrite !list_sum_cons, Hc, IHcs.
Qed.


(** ** Distinct paths *)






Section DistinctPaths.
Variable Clean : string -> string.
Variable Separator : ascii.
(** [comps] reads a path as the list of its elements, and joining a valid
    name to a path appends it to that list. *)
Variable valid : string -> bool.
Variable comps : string -> list string.
Hypothesis comps_Join :
  forall p name, valid name = true ->
                 comps (filepath_Join Clean Separator [p; name]) = (comps p ++ [name])%list.


End DistinctPaths.

(** ** filepath.Clean on Unix reads a joined name as one more element *)




Lemma elements_Forall s : Forall (fun e => no_slash e = true) (elements s).
Proof.
  induction s as [|c s IH]; cbn; [repeat constructor|].
  destruct (Ascii.eqb c slash) eqn:E; [constructor; [reflexivity | exact IH]|].
  destruct (elements s) as [|e es]; [repeat constructor; cbn; now rewrite E|].
  inversion IH; subst. constructor; [cbn; now rewrite E | assumption].
Qed.


Lemma kept_step rooted out e :
  kept rooted out = true -> no_slash e = true ->
  kept rooted (clean_elem rooted out e) = true.
Proof.
  intros Hk He. unfold clean_elem.
  destruct (e =? "") eqn:E1; [exact Hk|].
  destruct (e =? ".") eqn:E2; [exact Hk|]. cbn [orb].
  destruct (e =? "..") eqn:E3.
  - destruct out as [|top out'].
    + destruct rooted; [reflexivity|]. cbn. now rewrite He, E1, E2, E3.
    + destruct (top =? "..") eqn:Et.
      * cbn [kept] in *. rewrite He, E1, E2, E3, Hk. cbn [negb andb].
        rewrite Et in Hk. rewrite String.eqb_sym in Et.
        cbn [forallb]. rewrite Et. cbn [andb].
        repeat (apply andb_true_iff in Hk; destruct Hk as [Hk ?]).
        apply andb_true_iff. split; [|reflexivity]. assumption.
      * cbn [kept] in Hk. apply andb_true_iff in Hk. now destruct Hk.
  - cbn [kept]. now rewrite He, E1, E2, E3, Hk.
Qed.

Lemma kept_fold rooted l :
  Forall (fun e => no_slash e = true) l ->
  forall out, kept rooted out = true ->
              kept rooted (fold_left (clean_elem rooted) l out) = true.
Proof.
  induction 1 as [|e l He _ IH]; intros out Hk; [exact Hk|].
  cbn [fold_left]. apply IH. now apply kept_step.
Qed.

Lemma unix_out_kept p : kept (String.prefix "/" p) (unix_out p) = true.
Proof. apply kept_fold; [apply elements_Forall | reflexivity]. Qed.


Lemma kept_Forall rooted out :
  kept rooted out = true ->
  Forall (fun e => no_slash e = true) out
  /\ Forall (fun e => exists c s, e = String c s /\ Ascii.eqb c slash = false) out.
Proof.
  induction out as [|e out IH]; cbn [kept]; intros Hk; [split; constructor|].
  repeat (apply andb_true_iff in Hk; destruct Hk as [Hk ?]).
  destruct IH as [IH1 IH2]; [assumption|].
  split; constructor; try assumption.
  destruct e as [|c s]; [discriminate|]. exists c, s. split; [reflexivity|].
  cbn in Hk. apply andb_true_iff in Hk. destruct Hk as [Hk _].
  now apply negb_true_iff in Hk.
Qed.








(** ** The nodes behind the entries *)

Lemma visited_Dir s ents :
  visited (Dir s None ents)
  = Dir s None ents :: flat_map visited (sort_by node_name ents).
Proof.
  cbn [visited]. f_equal. rewrite sort_by_map.
  rewrite flat_map_concat_map, map_map. now rewrite <- flat_map_concat_map.
Qed.

Lemma visited_leaf n :
  match n with Dir _ None _ => False | _ => True end -> visited n = [n].
Proof. destruct n as [s e|s|s [e|] ents]; cbn; intros H; now try destruct H. Qed.

Lemma sorted_Forall {P : node -> Prop} ents :
  Forall P ents -> Forall P (sort_by node_name ents).
Proof.
  intros H. apply Forall_forall. intros c Hin. rewrite Forall_forall in H.
  apply H. now apply (sort_by_In node_name).
Qed.

Lemma visited_length n : length (visited n) = reachable_count n.
Proof.
  induction n as [s e|s|s rd ents IH] using node_induction; try reflexivity.
  destruct rd as [e|]; [reflexivity|].
  rewrite visited_Dir. cbn [length reachable_count]. f_equal.
  rewrite (list_sum_perm _ _ (Permutation_map reachable_count
                                (sort_by_perm node_name ents))).
  apply sorted_Forall in IH.
  induction IH as [|c cs Hc _ IHcs]; [reflexivity|].
  cbn [flat_map map]. now rewrite list_sum_cons, length_app, Hc, IHcs.
Qed.



Section EntryFacts.
Variable Clean : string -> string.
Variable Separator : ascii.

(** Every entry of the listing carries the metadata and the failure of
    its own node. *)
Lemma preorder_visited n :
  forall p, map (fun it => (info it, err it)) (preorder Clean Separator n p)
            = map (fun c => (fst (lstat c), node_error c)) (visited n).
Proof.
  induction n as [s e|s|s rd ents IH] using node_induction; intros p;
    try reflexivity.
  destruct rd as [e|]; [reflexivity|].
  rewrite preorder_Dir, visited_Dir. cbn [map]. f_equal.
  apply sorted_Forall in IH. unfold below.
  induction IH as [|c cs Hc _ IHcs]; [reflexivity|].
  cbn [flat_map]. now rewrite !map_app, Hc, IHcs.
Qed.
End EntryFacts.

(** ** One call of SkipDir *)

Lemma cut_app_l k size (l r : list item) :
  S k <= length l -> k + size <= length l ->
  cut k size (l ++ r) = (cut k size l ++ r)%list.
Proof.
  intros H1 H2. unfold cut. rewrite firstn_app, skipn_app.
  replace (S k - length l) with 0 by lia.
  replace (k + size - length l) with 0 by lia.
  cbn [firstn skipn]. now rewrite app_nil_r, app_assoc.
Qed.

Lemma cut_app_r k size (l r : list item) :
  length l <= k ->
  cut k size (l ++ r) = (l ++ cut (k - length l) size r)%list.
Proof.
  intros H. unfold cut. rewrite firstn_app, skipn_app.
  rewrite firstn_all2 by lia. rewrite skipn_all2 by lia.
  replace (S k - length l) with (S (k - length l)) by lia.
  replace (k + size - length l) with (k - length l + size) by lia.
  cbn [app]. now rewrite app_assoc.
Qed.

Lemma reachable_count_pos n : 1 <= reachable_count n.
Proof. destruct n as [s e|s|s [e|] ents]; cbn; lia. Qed.

Section SkipAt.
Variable Clean : string -> string.
Variable Separator : ascii.
Variable j : nat.

Abbreviation sw := (spec_walk Clean Separator (skip_at j)).
Abbreviation pre := (preorder Clean Separator).
Abbreviation skip_ok := (skip_ok Clean Separator j).

Lemma skip_children cs :
  Forall skip_ok cs ->
  forall i p,
    ((j < i \/ i + length (below Clean Separator pre p cs) <= j) ->
     spec_children Clean Separator p i (map (fun c => (node_name c, sw c)) cs)
     = below Clean Separator pre p cs)
    /\ (forall k c,
           j = i + k -> nth_error (flat_map visited cs) k = Some c ->
           k + reachable_count c <= length (below Clean Separator pre p cs)
           /\ spec_children Clean Separator p i
                            (map (fun c => (node_name c, sw c)) cs)
              = cut k (reachable_count c) (below Clean Separator pre p cs)).
Proof.
  induction 1 as [|c0 cs H0 _ IH]; intros i p.
  - split; [reflexivity|]. intros [|k] c _ Hn; discriminate.
  - cbn [map spec_children]. unfold below. cbn [flat_map].
    fold (below Clean Separator pre p cs).
    set (p0 := filepath_Join Clean Separator [p; node_name c0]).
    destruct (H0 i p0) as [A0 B0].
    assert (Hlen := preorder_length Clean Separator c0 p0).
    rewrite length_app, Hlen. split.
    + intros Hj. rewrite A0 by lia. rewrite Hlen.
      destruct (IH (i + reachable_count c0) p) as [A' _].
      rewrite A' by lia. reflexivity.
    + intros k c Hk Hn.
      assert (Hpos := reachable_count_pos c).
      destruct (Nat.lt_ge_cases k (reachable_count c0)) as [Hlt|Hge].
      * rewrite nth_error_app1 in Hn by now rewrite visited_length.
        destruct (B0 k c Hk Hn) as [Hfit ->].
        assert (Hc : length (cut k (reachable_count c) (pre c0 p0)) > k).
        { unfold cut. rewrite length_app, length_firstn. lia. }
        destruct (IH (i + length (cut k (reachable_count c) (pre c0 p0))) p)
          as [A' _].
        rewrite A' by lia. split; [lia|].
        symmetry. apply cut_app_l; lia.
      * rewrite nth_error_app2 in Hn by now rewrite visited_length.
        rewrite visited_length in Hn.
        rewrite A0 by lia. rewrite Hlen.
        destruct (IH (i + reachable_count c0) p) as [_ B'].
        destruct (B' (k - reachable_count c0) c) as [Hfit ->]; [lia | exact Hn |].
        split; [lia|]. rewrite cut_app_r by lia. now rewrite Hlen.
Qed.

Lemma skip_at_ok : forall n, skip_ok n.
Proof.
  assert (Hleaf : forall n, match n with Dir _ None _ => False | _ => True end ->
                            skip_ok n).
  { intros n Hn i p.
    assert (Hs : sw n i p = [entry_of p n])
      by (destruct n as [s e|s|s [e|] ents]; [reflexivity .. | destruct Hn]).
    rewrite Hs, (preorder_leaf Clean Separator n p Hn), (visited_leaf n Hn).
    split; [reflexivity|]. intros [|[|k]] c _ Hk; try discriminate.
    injection Hk as <-.
    assert (H1 : reachable_count n = 1)
      by (destruct n as [s e|s|s [e|] ents]; [reflexivity .. | destruct Hn]).
    rewrite H1. split; [lia | reflexivity]. }
  induction n as [s e|s|s rd ents IH] using node_induction;
    try (apply Hleaf; exact I).
  destruct rd as [e|]; [apply Hleaf; exact I|].
  intros i p. apply sorted_Forall in IH.
  assert (Hlen := preorder_length Clean Separator (Dir s None ents) p).
  rewrite preorder_Dir, visited_Dir in *. cbn [length] in Hlen.
  cbn [spec_walk]. rewrite sort_by_map.
  unfold skip_at at 1 3. change (is_dir_entry (entry_of p (Dir s None ents))) with true.
  rewrite !andb_true_r.
  destruct (skip_children _ IH (S i) p) as [A' B']. split.
  - intros Hj. replace (Nat.eqb i j) with false
      by (symmetry; apply Nat.eqb_neq; lia).
    rewrite A' by lia. reflexivity.
  - intros [|k] c Hk Hn.
    + injection Hn as <-. replace (Nat.eqb i j) with true
        by (symmetry; apply Nat.eqb_eq; lia).
      split; [lia|]. unfold cut. cbn [firstn Nat.add].
      rewrite skipn_all2; [reflexivity|]. cbn [length]. lia.
    + cbn [nth_error] in Hn. replace (Nat.eqb i j) with false
        by (symmetry; apply Nat.eqb_neq; lia).
      destruct (B' k c) as [Hfit ->]; [lia | exact Hn |].
      split; [lia|]. reflexivity.
Qed.

(** The traversal with one [SkipDir], on entry [j], is the plain listing
    without what lies below the node of entry [j]. *)
Lemma spec_walk_skip_at n root c :
  nth_error (visited n) j = Some c ->
  j + reachable_count c <= reachable_count n
  /\ sw n 0 root = cut j (reachable_count c) (pre n root).
Proof. intros Hn. now apply (skip_at_ok n 0 root). Qed.
End SkipAt.

(** Where the entries of a node and of everything below it stand in the
    listing: from the node's own number on, without a gap. *)
Section Subtree.
Variable Clean : string -> string.
Variable Separator : ascii.

Abbreviation pre := (preorder Clean Separator).
Abbreviation block_ok := (block_ok Clean Separator).

Lemma firstn_skipn_app_l (m k : nat) (l r x : list item) :
  length x = m -> firstn m (skipn k l) = x ->
  firstn m (skipn k (l ++ r)) = x.
Proof.
  intros Hx H.
  assert (Hm : m <= length (skipn k l)).
  { rewrite <- Hx, <- H, length_firstn. lia. }
  rewrite length_skipn in Hm.
  rewrite skipn_app, firstn_app, H.
  replace (m - length (skipn k l)) with 0 by (rewrite length_skipn; lia).
  cbn [firstn]. apply app_nil_r.
Qed.

Lemma block_children cs :
  Forall block_ok cs ->
  forall p k c,
    nth_error (flat_map visited cs) k = Some c ->
    exists p', firstn (reachable_count c)
                      (skipn k (below Clean Separator pre p cs)) = pre c p'.
Proof.
  induction 1 as [|c0 cs H0 _ IH]; intros p k c Hn.
  - destruct k; discriminate.
  - unfold below. cbn [flat_map] in *. fold (below Clean Separator pre p cs).
    set (p0 := filepath_Join Clean Separator [p; node_name c0]).
    destruct (Nat.lt_ge_cases k (reachable_count c0)) as [Hlt|Hge].
    + rewrite nth_error_app1 in Hn by now rewrite visited_length.
      destruct (H0 p0 k c Hn) as (p' & Hp). exists p'.
      apply firstn_skipn_app_l; [apply preorder_length | exact Hp].
    + rewrite nth_error_app2 in Hn by now rewrite visited_length.
      rewrite visited_length in Hn.
      destruct (IH p _ c Hn) as (p' & Hp). exists p'.
      rewrite skipn_app, skipn_all2 by (rewrite preorder_length; lia).
      now rewrite preorder_length.
Qed.

Lemma block_at : forall n, block_ok n.
Proof.
  assert (Hleaf : forall n, match n with Dir _ None _ => False | _ => True end ->
                            block_ok n).
  { intros n Hn p k c Hk. rewrite (visited_leaf n Hn) in Hk.
    destruct k as [|[|k]]; try discriminate. injection Hk as <-.
    exists p. rewrite (preorder_leaf Clean Separator n p Hn).
    destruct n as [s e|s|s [e|] ents]; [reflexivity .. | destruct Hn]. }
  induction n as [s e|s|s rd ents IH] using node_induction;
    try (apply Hleaf; exact I).
  destruct rd as [e|]; [apply Hleaf; exact I|].
  intros p k c Hk. apply sorted_Forall in IH.
  destruct k as [|k].
  - cbn in Hk. injection Hk as <-. exists p. cbn [skipn].
    apply firstn_all2. now rewrite preorder_length.
  - rewrite visited_Dir in Hk. cbn [nth_error] in Hk.
    rewrite preorder_Dir. cbn [skipn].
    now apply block_children.
Qed.
End Subtree.

(** ** The walk as a whole *)

Lemma never_skips : forall i it, never i it = true -> info it <> None.
Proof. discriminate. Qed.

Lemma skip_at_dir j : forall i it, skip_at j i it = true -> info it <> None.
Proof.
  unfold skip_at, is_dir_entry. intros i it H.
  apply andb_true_iff in H. destruct H as [_ H].
  destruct (info it); [discriminate | discriminate].
Qed.



(** C3: [SkipDir] on a directory keeps the walk out of it and lets it go
    on behind it.  Whatever the caller's choice of the entries to call
    [SkipDir] on (a function of the entry and of its number), the loop
    delivers the specification's traversal [spec_walk], which does not
    descend below a skipped directory.  In particular, when entry number
    [j] of the walk is a directory and the caller calls [SkipDir] on it,
    the loop delivers the plain listing without that directory's
    descendants: they are the entries that follow it immediately in the
    plain listing ([firstn d (skipn j full)] is the listing of the
    directory's own subtree), and after entry [j] the next [Step] goes on
    with the first entry behind them, the next sibling of the directory or
    of one of its ancestors, or returns false if there is none. *)
Theorem SkipDir_skips_subtree (Clean : string -> string) (Separator : ascii)
        (root : string) (n : node) (sched : nat -> nat) :
  (forall (skip : nat -> item -> bool) (fuel : nat),
      (forall i it, skip i it = true -> info it <> None) ->
      length (spec_walk Clean Separator skip n 0 root) < fuel ->
      exists w', drain skip sched fuel 0 (Walk Clean Separator root n)
                 = Done (Some (spec_walk Clean Separator skip n 0 root)) w'
                 /\ ended w')
  /\ (forall (j : nat) (s : string) (rd : option error) (ents : list node)
             (fuel : nat),
         nth_error (visited n) j = Some (Dir s rd ents) ->
         reachable_count n < fuel ->
         let full := preorder Clean Separator n root in
         let d := reachable_count (Dir s rd ents) in
         j + d <= length full
         /\ (exists p, firstn d (skipn j full)
                       = preorder Clean Separator (Dir s rd ents) p)
         /\ (exists w', drain (skip_at j) sched fuel 0 (Walk Clean Separator root n)
                        = Done (Some (firstn (S j) full ++ skipn (j + d) full)%list) w'
                        /\ ended w')).
Proof.
  split.
  - intros skip fuel Hskip Hf. now apply drain_spec_walk.
  - intros j s rd ents fuel Hn Hf full d. subst full d.
    destruct (spec_walk_skip_at Clean Separator j n root _ Hn) as [Hfit Hsw].
    rewrite preorder_length. split; [exact Hfit|]. split.
    + exact (block_at Clean Separator n root j _ Hn).
    + fold (cut j (reachable_count (Dir s rd ents)) (preorder Clean Separator n root)).
      rewrite <- Hsw. apply drain_spec_walk; [apply skip_at_dir|].
      rewrite Hsw. unfold cut.
      rewrite length_app, length_firstn, length_skipn, preorder_length.
      assert (Hpos := reachable_count_pos (Dir s rd ents)). lia.
Qed.

Lemma SkipDir_skips_subtree_witness :
  let t := Dir "d" None [File "b"; Dir "a" None [File "x"; Dir "y" None [File "z"]]] in
  map path (preorder unix_Clean slash t "d")
  = ["d"; "d/a"; "d/a/x"; "d/a/y"; "d/a/y/z"; "d/b"]
  /\ (exists w', drain (skip_at 1) (fun _ => 2) 7 0 (Walk unix_Clean slash "d" t)
                 = Done (Some (firstn 2 (preorder unix_Clean slash t "d")
                               ++ skipn 5 (preorder unix_Clean slash t "d"))%list) w')
  /\ (exists w', drain (fun i it => skip_at 1 i it || skip_at 3 i it) (fun _ => 2) 7 0
                       (Walk unix_Clean slash "d" t)
                 = Done (Some (spec_walk unix_Clean slash
                                         (fun i it => skip_at 1 i it || skip_at 3 i it)
                                         t 0 "d")) w').
Proof.
  intros t. split; [reflexivity|].
  destruct (SkipDir_skips_subtree unix_Clean slash "d" t (fun _ => 2)) as [Hall Hone].
  split.
  - destruct (Hone 1 "a" None [File "x"; Dir "y" None [File "z"]] 7)
      as (_ & _ & w' & H & _); [reflexivity | cbn; lia |].
    exists w'. exact H.
  - destruct (Hall (fun i it => skip_at 1 i it || skip_at 3 i it) 7) as (w' & H & _).
    + intros i it Hi. apply orb_true_iff in Hi.
      destruct Hi as [Hi|Hi]; exact (skip_at_dir _ i it Hi).
    + cbn; lia.
    + exists w'. exact H.
Defined.

(** C7: a failure of [Lstat] or of reading a directory does not end the
    loop.  Every entry is delivered by a [Step] that returns true and
    carries the metadata and the failure of its own node (what [Stat] and
    [Err] return); false comes only after one entry for every node that
    is not below a directory whose listing failed, and the entries are
    those of the tree without the nodes below such directories. *)
Theorem failures_stay_on_their_entries (Clean : string -> string)
        (Separator : ascii) (root : string) (n : node) (sched : nat -> nat)
        (fuel : nat) :
  reachable_count n < fuel ->
  exists l w',
    drain never sched fuel 0 (Walk Clean Separator root n) = Done (Some l) w'
    /\ map (fun it => (info it, err it)) l
       = map (fun c => (fst (lstat c), node_error c)) (visited n)
    /\ length l = node_count (prune_unreadable n)
    /\ l = preorder Clean Separator (prune_unreadable n) root.
Proof.
  intros Hf. exists (preorder Clean Separator n root).
  destruct (drain_spec_walk Clean Separator never sched root n fuel never_skips)
    as (w' & Hd & _).
  { now rewrite spec_walk_never, preorder_length. }
  rewrite spec_walk_never in Hd. exists w'. split; [exact Hd|]. split.
  - apply preorder_visited.
  - split.
    + now rewrite preorder_length, reachable_count_prune.
    + symmetry. apply preorder_prune.
Qed.

Lemma failures_stay_on_their_entries_witness :
  let t := Dir "d" None [Dir "u" (Some (PathError "permission denied")) [File "hidden"];
                         Gone "g" (PathError "no such file"); File "z"] in
  exists l w',
    drain never (fun _ => 0) 5 0 (Walk unix_Clean slash "d" t) = Done (Some l) w'
    /\ map (fun it => (path it, err it)) l
       = [("d", None); ("d/g", Some (PathError "no such file"));
          ("d/u", Some (PathError "permission denied")); ("d/z", None)].
Proof.
  intros t.
  destruct (failures_stay_on_their_entries unix_Clean slash "d" t (fun _ => 0) 5)
    as (l & w' & H1 & _ & _ & H4); [cbn; lia|].
  exists l, w'. split; [exact H1|]. rewrite H4. reflexivity.
Defined.

(** ** Where Stop does stop the walk *)

Lemma aborts_bind p (f : option error -> walkM (option error)) :
  aborts p -> f (Some ErrStop) = Ret (Some ErrStop) -> (forall a, aborts (f a)) ->
  aborts (bind p f).
Proof.
  intros Hp Hf Ha. induction p as [a|pa inf er k IH]; cbn; [apply Ha|].
  destruct Hp as [Hk Hr]. split.
  - rewrite Hk. exact Hf.
  - intros r. apply IH, Hr.
Qed.

Lemma aborts_walkFn p i e : aborts (walkFn p i e).
Proof. cbn. split; [reflexivity | intros r; exact I]. Qed.

Section Aborts.
Variable Clean : string -> string.
Variable Separator : ascii.

Lemma aborts_walk_range p cs :
  Forall (fun c => forall p, aborts (walk Clean Separator c p)) cs ->
  aborts (walk_range Clean Separator p
            (map (fun c => (node_name c, (c, walk Clean Separator c))) cs)).
Proof.
  induction 1 as [|c cs Hc _ IH]; [exact I|].
  cbn [map walk_range].
  destruct c as [s e|s|s rd ents]; cbn [lstat];
    (apply aborts_bind;
     [first [apply aborts_walkFn | apply Hc]
     | reflexivity
     | intros a;
       match goal with |- aborts (if ?b then _ else _) => destruct b end;
       [exact I | exact IH]]).
Qed.

Lemma aborts_walk n : forall p, aborts (walk Clean Separator n p).
Proof.
  induction n as [s e|s|s rd ents IH] using node_induction; intros p.
  - exact I.
  - apply aborts_walkFn.
  - cbn [walk]. apply aborts_bind; [apply aborts_walkFn | |].
    + cbn [is_nil negb]. now rewrite orb_true_r.
    + intros a. destruct (negb (is_nil rd) || negb (is_nil a)); [exact I|].
      rewrite sort_by_map. apply aborts_walk_range. now apply sorted_Forall.
Qed.

Lemma aborts_filepath_Walk root n : aborts (filepath_Walk Clean Separator root n).
Proof.
  unfold filepath_Walk. apply aborts_bind.
  - destruct n; cbn [lstat]; first [apply aborts_walkFn | apply aborts_walk].
  - reflexivity.
  - intros a. now destruct (is_SkipDir a).
Qed.
End Aborts.

Lemma unstopped_Walk Clean Separator root n :
  unstopped (Walk Clean Separator root n).
Proof.
  split; [reflexivity|]. left. split; [reflexivity|]. left.
  eexists. split; [reflexivity | apply aborts_filepath_Walk].
Qed.

Lemma unstopped_do_call c w w' :
  is_CStop c = false -> unstopped w -> do_call c w = Done tt w' -> unstopped w'.
Proof.
  intros Hc Hu H. destruct w as [g cu o r rt].
  destruct Hu as (Hr & Hu). cbn in Hr. subst r.
  destruct c; try discriminate; cbn in Hu.
  - (* Step *)
    cbn [do_call] in H. rewrite bind_run in H.
    destruct Hu as [(-> & [(p & -> & Hp) | ->]) | (-> & k & -> & Hk & Hall)].
    + destruct p as [a|pa inf er k];
        unfold Step in H; cbn in H; unfold M_bind in H; cbn in H;
        inversion H; subst; (split; [reflexivity|]).
      * left. split; [reflexivity|]. now right.
      * right. split; [reflexivity|]. exists k. split; [reflexivity|]. exact Hp.
    + unfold Step in H; cbn in H; unfold M_bind in H; cbn in H.
      inversion H; subst.
      split; [reflexivity|]. left. split; [reflexivity|]. now right.
    + specialize (Hall rt).
      unfold Step in H; cbn in H; unfold M_bind in H; cbn in H.
      destruct (k rt) as [a|pa inf er k'] eqn:E; cbn in H;
        inversion H; subst; (split; [reflexivity|]).
      * left. split; [reflexivity|]. now right.
      * right. split; [reflexivity|]. exists k'. split; [reflexivity|]. exact Hall.
  - (* SkipDir *)
    cbn [do_call] in H. unfold SkipDir in H. cbn in H. unfold M_bind in H. cbn in H.
    destruct o; cbn in H.
    + destruct (info cu) as [fi|]; cbn in H; [|discriminate].
      destruct (IsDir fi); cbn in H; inversion H; subst; (split; [reflexivity|]).
      all: exact Hu.
    + inversion H; subst. split; [reflexivity|]. exact Hu.
  - (* the goroutine runs *)
    cbn in H. inversion H; subst. clear H.
    destruct Hu as [(-> & [(p & -> & Hp) | ->]) | (-> & k & -> & Hk)]; cbn.
    + destruct p; cbn; (split; [reflexivity|]); left; (split; [reflexivity|]);
        [now right | left; eexists; split; [reflexivity | exact Hp]].
    + split; [reflexivity|]. left. split; [reflexivity|]. now right.
    + split; [reflexivity|]. right. split; [reflexivity|].
      exists k. split; [reflexivity | exact Hk].
Qed.

Lemma unstopped_do_calls cs :
  forallb (fun c => negb (is_CStop c)) cs = true ->
  forall w w', unstopped w -> do_calls cs w = Done tt w' -> unstopped w'.
Proof.
  induction cs as [|c cs IH]; intros Hcs w w' Hu H.
  - inversion H; subst. exact Hu.
  - cbn [forallb] in Hcs. apply andb_true_iff in Hcs. destruct Hcs as [Hc Hcs].
    apply negb_true_iff in Hc.
    cbn [do_calls] in H. rewrite bind_run in H.
    destruct (do_call c w) as [[] w1| |] eqn:E; try discriminate.
    apply (IH Hcs w1 w'); [|exact H]. exact (unstopped_do_call c w w1 Hc Hu E).
Qed.

Lemma stopping_do_call c w w' :
  is_CStop c = false -> c <> CStep ->
  stopping w -> do_call c w = Done tt w' -> stopping w'.
Proof.
  intros Hc Hs Hst H. destruct w as [g cu o r rt].
  destruct Hst as (Ho & Hst). cbn in Ho. subst o. cbn in Hst.
  destruct c; try discriminate; try congruence.
  - cbn [do_call] in H. unfold SkipDir in H. cbn in H. unfold M_bind in H. cbn in H.
    destruct (info cu) as [fi|]; cbn in H; [|discriminate].
    destruct (IsDir fi); cbn in H; inversion H; subst; (split; [reflexivity|]);
      exact Hst.
  - cbn in H. inversion H; subst. clear H.
    destruct Hst as [(-> & k & -> & Hk) | (-> & [-> | ->])]; cbn.
    + rewrite Hk. split; [reflexivity|]. right. split; [reflexivity|]. now left.
    + split; [reflexivity|]. right. split; [reflexivity|]. now right.
    + split; [reflexivity|]. right. split; [reflexivity|]. now right.
Qed.

Lemma stopping_Step w : stopping w -> exists w', Step w = Done false w'.
Proof.
  destruct w as [g cu o r rt]. intros (Ho & Hst). cbn in Ho, Hst. subst o.
  destruct Hst as [(-> & k & -> & Hk) | (-> & [-> | ->])];
    unfold Step; cbn; unfold M_bind; cbn; try rewrite Hk;
    eexists; reflexivity.
Qed.

(** X5: [Stop] called once on a delivered entry ends the walk: whatever the
    caller did before without [Stop], and whether or not the goroutine runs
    or [SkipDir] is called in between, the next [Step] returns false. *)
Lemma Stop_on_entry_ends_walk Clean Separator root n (before between : list call)
      (w w' : Walker) :
  forallb (fun c => negb (is_CStop c)) before = true ->
  forallb (fun c => match c with CSkipDir | CYield => true | _ => false end)
          between = true ->
  do_calls before (Walk Clean Separator root n) = Done tt w ->
  ok w = true ->
  do_calls (CStop :: between) w = Done tt w' ->
  exists w'', Step w' = Done false w''.
Proof.
  intros Hb Hbt Hrun Hok Hstop.
  assert (Hu := unstopped_do_calls before Hb _ _ (unstopped_Walk _ _ _ _) Hrun).
  cbn [do_calls] in Hstop. rewrite bind_run in Hstop.
  assert (Hst : exists w1, do_call CStop w = Done tt w1 /\ stopping w1).
  { destruct w as [g cu o r rt]. destruct Hu as (Hr & Hu). cbn in Hr, Hok, Hu.
    subst r o. destruct Hu as [(Hf & _) | (_ & k & -> & Hk & _)]; [discriminate|].
    eexists. split; [reflexivity|]. split; [reflexivity|]. left.
    split; [reflexivity|]. exists k. split; [reflexivity | exact Hk]. }
  destruct Hst as (w1 & Hs1 & Hst). rewrite Hs1 in Hstop. clear Hs1 Hu Hrun Hok.
  revert w1 Hst Hstop. induction between as [|c cs IH]; intros w1 Hst Hstop.
  - inversion Hstop; subst. now apply stopping_Step.
  - cbn [forallb] in Hbt. apply andb_true_iff in Hbt. destruct Hbt as [Hc Hcs].
    cbn [do_calls] in Hstop. rewrite bind_run in Hstop.
    destruct (do_call c w1) as [[] w2| |] eqn:E; try discriminate.
    apply (IH Hcs w2); [|exact Hstop].
    apply (stopping_do_call c w1 w2); try assumption; destruct c; try discriminate;
      reflexivity.
Qed.

Lemma iter_background_fix m w : background w = w -> Nat.iter m background w = w.
Proof.
  intros H. induction m as [|m IH]; [reflexivity|].
  change (Nat.iter (S m) background w) with (background (Nat.iter m background w)).
  now rewrite IH.
Qed.

(** The goroutine in [recv] with the error of [Stop] in [retch]: it takes
    the error, [filepath.Walk] returns, and the channel is closed. *)
Lemma Stop_taken k cu rt m :
  k (Some ErrStop) = Ret (Some ErrStop) ->
  Nat.iter (S (S m)) background
           (mkWalker (Receiving k) cu true (Some (Some ErrStop)) rt)
  = mkWalker Exited cu true None rt.
Proof.
  intros Hk. rewrite !Nat.iter_succ_r.
  change (background (mkWalker (Receiving k) cu true (Some (Some ErrStop)) rt))
    with (mkWalker (Walking (k (Some ErrStop))) cu true None rt).
  rewrite Hk.
  change (background (mkWalker (Walking (Ret (Some ErrStop))) cu true None rt))
    with (mkWalker Exited cu true None rt).
  now apply iter_background_fix.
Qed.

Lemma Stop_taken_once k cu rt m :
  k (Some ErrStop) = Ret (Some ErrStop) ->
  exists g,
    Nat.iter (S m) background
             (mkWalker (Receiving k) cu true (Some (Some ErrStop)) rt)
    = mkWalker g cu true None rt
    /\ (g = Walking (Ret (Some ErrStop)) \/ g = Exited).
Proof.
  intros Hk. destruct m as [|m].
  - exists (Walking (Ret (Some ErrStop))). split; [|now left].
    change (Nat.iter 1 background ?x) with (background x).
    change (background (mkWalker (Receiving k) cu true (Some (Some ErrStop)) rt))
      with (mkWalker (Walking (k (Some ErrStop))) cu true None rt).
    now rewrite Hk.
  - exists Exited. split; [now apply Stop_taken | now right].
Qed.

Lemma gone_iter_background g cu o r rt a m :
  g = Walking (Ret a) \/ g = Exited ->
  exists g',
    Nat.iter m background (mkWalker g cu o r rt) = mkWalker g' cu o r rt
    /\ (g' = Walking (Ret a) \/ g' = Exited).
Proof.
  intros Hg. induction m as [|m (g' & E & Hg')]; [exists g; auto|].
  change (Nat.iter (S m) background ?x) with (background (Nat.iter m background x)).
  rewrite E. exists Exited. split; [|now right].
  destruct Hg' as [-> | ->]; reflexivity.
Qed.

(** Two calls of [Stop] on a Walker that holds an entry, the goroutine
    having taken the first before the second: both return, the second
    stays in [retch] for good, and the next [Step] waits for ever at
    [w.retch <- w.ret]. *)
Lemma Stop_twice_on_entry k cu rt m m' :
  k (Some ErrStop) = Ret (Some ErrStop) ->
  exists g,
    (Stop ;; yield (S m) ;; Stop ;; yield m') (mkWalker (Receiving k) cu true None rt)
    = Done tt (mkWalker g cu true (Some (Some ErrStop)) rt)
    /\ Step (mkWalker g cu true (Some (Some ErrStop)) rt) = Blocked.
Proof.
  intros Hk.
  set (w1 := mkWalker (Receiving k) cu true (Some (Some ErrStop)) rt).
  assert (E0 : Stop (mkWalker (Receiving k) cu true None rt) = Done tt w1)
    by reflexivity.
  destruct (Stop_taken_once k cu rt m Hk) as (g & E1 & Hg).
  destruct (gone_iter_background g cu true (Some (Some ErrStop)) rt _ m' Hg)
    as (g' & E2 & Hg').
  exists g'. split.
  - rewrite bind_run, E0. cbv beta iota. rewrite bind_run.
    assert (Ey : yield (S m) w1 = Done tt (mkWalker g cu true None rt)).
    { unfold yield, modify. f_equal. exact E1. }
    rewrite Ey. cbv beta iota. rewrite bind_run.
    assert (Es : Stop (mkWalker g cu true None rt)
                 = Done tt (mkWalker g cu true (Some (Some ErrStop)) rt))
      by reflexivity.
    rewrite Es. cbv beta iota. unfold yield, modify. f_equal. exact E2.
  - destruct Hg' as [-> | ->]; reflexivity.
Qed.

(** C8, at the input where the code fails: [Stop] is not safe to call
    twice.  On any tree, after the first [Step] has delivered the root,
    two calls of [Stop] both return at once and leave [cur] and [ok] as
    they are; but when the goroutine has taken the first (handed to it in
    [<-w.retch], or fetched there from the buffer: one step of the
    goroutine or more between the two calls), the second stays in [retch]
    for good, and the next [Step] does not return false: it waits for ever
    at [w.retch <- w.ret], however long the goroutine runs. *)
Theorem Stop_twice_blocks_Step (Clean : string -> string) (Separator : ascii)
        (root : string) (n : node) (m m' : nat) :
  exists w1 w2,
    Step (Walk Clean Separator root n) = Done true w1
    /\ cur w1 = entry_of root n
    /\ (Stop ;; yield (S m) ;; Stop ;; yield m') w1 = Done tt w2
    /\ cur w2 = cur w1 /\ ok w2 = ok w1
    /\ Step w2 = Blocked.
Proof.
  destruct (filepath_Walk_first Clean Separator root n) as [k Hk].
  assert (Ha := aborts_filepath_Walk Clean Separator root n).
  rewrite Hk in Ha. destruct Ha as [Hstop _].
  destruct (Stop_twice_on_entry k (mkItem root (fst (lstat n)) (err (entry_of root n)))
              None m m' Hstop) as (g & H1 & H2).
  eexists. eexists.
  rewrite (Step_at_send (Walk Clean Separator root n) _ _ _ k eq_refl
             (f_equal Walking Hk)).
  split; [reflexivity|]. split; [destruct n; reflexivity|].
  split; [exact H1|]. split; [reflexivity|]. split; [reflexivity | exact H2].
Qed.

(** ** The package's test table and the specification's scenario *)

(** [TestJoin] of filesystem_test.go, on Unix. *)
Example TestJoin :
  map (Join unix_Clean unix_fs)
      [ []; [""]; ["a"]; ["a"; "b"]; ["a"; ""]; [""; "b"]; ["/"; "a"]; ["/"; ""];
        ["a/"; "b"]; ["a/"; ""]; [""; ""] ]
  = [ ""; ""; "a"; "a/b"; "a"; "b"; "/a"; "/"; "a/b"; "a"; "" ].
Proof. reflexivity. Qed.

(** The scenario of the specification: "d" holds the directory "d/a" and the
    file "d/b".  The walk yields "d", "d/a", "d/b", with or without
    [SkipDir] on the empty "d/a"; when "d/a" holds the file "d/a/x",
    [SkipDir] on "d/a" leaves "d/a/x" out. *)
Example scenario_plain :
  let t := Dir "d" None [File "b"; Dir "a" None []] in
  option_map (option_map (map path))
             (result (drain never (fun _ => 1) 10 0 (Walk unix_Clean slash "d" t)))
  = Some (Some ["d"; "d/a"; "d/b"])
  /\ option_map (option_map (map path))
                (result (drain (skip_at 1) (fun _ => 1) 10 0
                               (Walk unix_Clean slash "d" t)))
     = Some (Some ["d"; "d/a"; "d/b"]).
Proof. split; reflexivity. Qed.

Example scenario_skip :
  let t := Dir "d" None [File "b"; Dir "a" None [File "x"]] in
  option_map (option_map (map path))
             (result (drain never (fun _ => 1) 10 0 (Walk unix_Clean slash "d" t)))
  = Some (Some ["d"; "d/a"; "d/a/x"; "d/b"])
  /\ option_map (option_map (map path))
                (result (drain (skip_at 1) (fun _ => 1) 10 0
                               (Walk unix_Clean slash "d" t)))
     = Some (Some ["d"; "d/a"; "d/b"]).
Proof. split; reflexivity. Qed.

(* ===================================================================== *)
(** * Part III: more of what the package does                             *)
(* ===================================================================== *)

(** ** Join *)

(** X1: [Join] drops the empty elements before the first one that is not
    empty, and only those: everything from that element on, empty elements
    included, is joined with the separator and handed to [Clean]. *)
Theorem Join_skips_leading_empty (Clean : string -> string) (fs : FileSystem)
        (n : nat) (e : string) (rest : list string) :
  e <> "" ->
  Join Clean fs (repeat "" n ++ e :: rest)
  = Clean (strings_Join (e :: rest) (string_of_byte (PathSeparator fs))).
Proof.
  intros He. rewrite Join_unfold.
  induction n as [|n IH]; cbn [repeat app Join_suffix String.eqb negb].
  - apply String.eqb_neq in He. now rewrite He.
  - exact IH.
Qed.

Lemma Join_skips_leading_empty_witness :
  Join unix_Clean unix_fs [""; ""; "a/"; ""; "b"] = "a/b".
Proof.
  change [""; ""; "a/"; ""; "b"] with (repeat "" 2 ++ "a/" :: [""; "b"])%list.
  rewrite (Join_skips_leading_empty unix_Clean unix_fs 2 "a/" [""; "b"]).
  - reflexivity.
  - discriminate.
Defined.

(** X2: [Join] returns the empty string only when every element is empty,
    given that [Clean] never returns the empty string (Go's turns it into
    "."). *)
Theorem Join_empty_iff (Clean : string -> string) (fs : FileSystem)
        (elem : list string) :
  (forall s, Clean s <> "") ->
  (Join Clean fs elem = "" <-> Forall (fun e => e = "") elem).
Proof.
  intros HC. rewrite Join_unfold. split.
  - induction elem as [|e elem IH]; cbn [Join_suffix]; [constructor|].
    destruct (e =? "") eqn:E; cbn [negb].
    + apply String.eqb_eq in E. intros H. constructor; [exact E | now apply IH].
    + intros H. now apply HC in H.
  - induction 1 as [|e l He _ IH]; cbn [Join_suffix]; [reflexivity|].
    subst e. exact IH.
Qed.

Lemma concat_not_empty (l : list string) :
  Forall (fun e => exists c s, e = String c s /\ Ascii.eqb c slash = false) l ->
  l <> [] -> String.concat "/" l <> "".
Proof.
  intros Hf Hn. destruct l as [|x l]; [congruence|].
  inversion Hf as [|? ? (c & s & -> & _) _]; subst.
  destruct l; cbn; discriminate.
Qed.

Lemma unix_Clean_not_empty s : unix_Clean s <> "".
Proof.
  unfold unix_Clean, unix_render.
  destruct (String.prefix "/" s) eqn:E; [cbn; discriminate|].
  destruct (unix_out s) as [|e out] eqn:Eo; [discriminate|].
  assert (Hk := unix_out_kept s). rewrite E, Eo in Hk.
  destruct (kept_Forall _ _ Hk) as [_ H2]. apply Forall_rev in H2.
  apply concat_not_empty; [exact H2|].
  cbn. now destruct (rev out).
Qed.

Lemma Join_empty_iff_witness :
  Join unix_Clean unix_fs [""; "."; ""] <> "".
Proof.
  intros H.
  apply (proj1 (Join_empty_iff unix_Clean unix_fs [""; "."; ""] unix_Clean_not_empty)) in H.
  inversion H as [|? ? _ H']. inversion H' as [|? ? Hd _]. discriminate Hd.
Defined.

(** ** The handshake of Step and the goroutine without Stop *)

Lemma at_rest_Walk Clean Separator root n : at_rest (Walk Clean Separator root n).
Proof.
  destruct (filepath_Walk_first Clean Separator root n) as [k Hk].
  unfold at_rest, Walk. cbn [retch itemch ok]. rewrite Hk. now split.
Qed.

Lemma at_rest_background w : at_rest w -> background w = w.
Proof.
  destruct w as [g cu o r rt]. intros (Hr & Hg). cbn in Hr, Hg. subst r.
  destruct g as [[a|pa inf er k]|k|]; cbn in *; now try reflexivity.
Qed.

Lemma at_rest_yield m w : at_rest w -> yield m w = Done tt w.
Proof.
  intros H. unfold yield, modify. f_equal.
  induction m as [|m IH]; [reflexivity|].
  change (Nat.iter (S m) background w) with (background (Nat.iter m background w)).
  rewrite IH. now apply at_rest_background.
Qed.

Lemma at_rest_do_call c w :
  is_CStop c = false -> at_rest w ->
  match do_call c w with
  | Done _ w' => at_rest w'
  | Blocked => False
  | Panic => is_CSkipDir c = true
  end.
Proof.
  intros Hc H. destruct c; try discriminate.
  - (* Step *)
    destruct w as [g cu o r rt]. destruct H as (Hr & Hg). cbn in Hr, Hg. subst r.
    cbn [do_call]. rewrite bind_run.
    destruct g as [[a|pa inf er k]|k|]; cbn in Hg; try contradiction; subst o.
    + unfold Step; cbn; unfold M_bind; cbn. now split.
    + unfold Step; cbn; unfold M_bind; cbn.
      destruct (k rt) as [a|pa inf er k']; cbn; now split.
    + unfold Step; cbn; unfold M_bind; cbn. now split.
  - (* SkipDir *)
    destruct w as [g cu o r rt]. cbn [do_call].
    unfold SkipDir; cbn; unfold M_bind; cbn.
    destruct o; cbn; [|exact H].
    destruct (info cu) as [fi|]; cbn; [|reflexivity].
    destruct (IsDir fi); cbn; exact H.
  - (* the goroutine runs *)
    change (do_call CYield w) with (yield 1 w). now rewrite at_rest_yield.
Qed.

Lemma at_rest_do_calls cs :
  forallb (fun c => negb (is_CStop c)) cs = true ->
  forall w, at_rest w ->
  match do_calls cs w with
  | Done _ w' => at_rest w'
  | Blocked => False
  | Panic => existsb is_CSkipDir cs = true
  end.
Proof.
  induction cs as [|c cs IH]; intros Hcs w H; [exact H|].
  cbn [forallb] in Hcs. apply andb_true_iff in Hcs. destruct Hcs as [Hc Hcs].
  apply negb_true_iff in Hc.
  cbn [do_calls existsb]. rewrite bind_run.
  assert (H1 := at_rest_do_call c w Hc H).
  destruct (do_call c w) as [[] w1| |].
  - specialize (IH Hcs w1 H1).
    destruct (do_calls cs w1); try exact IH. rewrite IH. apply orb_true_r.
  - contradiction.
  - now rewrite H1.
Qed.

(** X3: without [Stop] the handshake never deadlocks and the goroutine never
    runs ahead: after any sequence of [Step], [SkipDir] and runs of the
    goroutine on a fresh Walker, every call has returned (or [SkipDir]
    has panicked), [retch] is empty, and the goroutine waits at its first
    send, or in [recv] for the answer to the entry the Walker holds, or
    has closed the channel; however long it is left to run then, nothing
    changes. *)
Theorem no_deadlock_without_Stop (Clean : string -> string) (Separator : ascii)
        (root : string) (n : node) (cs : list call) :
  forallb (fun c => negb (is_CStop c)) cs = true ->
  match do_calls cs (Walk Clean Separator root n) with
  | Done _ w => at_rest w /\ forall m, yield m w = Done tt w
  | Blocked => False
  | Panic => existsb is_CSkipDir cs = true
  end.
Proof.
  intros Hcs.
  assert (H := at_rest_do_calls cs Hcs _ (at_rest_Walk Clean Separator root n)).
  destruct (do_calls cs (Walk Clean Separator root n)); try exact H.
  split; [exact H|]. intros m. now apply at_rest_yield.
Qed.

Lemma no_deadlock_without_Stop_witness :
  match do_calls [CStep; CYield; CSkipDir; CStep; CStep; CStep]
                 (Walk unix_Clean slash "d" (Dir "d" None [File "b"])) with
  | Done _ w => at_rest w /\ forall m, yield m w = Done tt w
  | Blocked => False
  | Panic => True
  end.
Proof.
  assert (H := no_deadlock_without_Stop unix_Clean slash "d" (Dir "d" None [File "b"])
                 [CStep; CYield; CSkipDir; CStep; CStep; CStep] eq_refl).
  destruct (do_calls _ _); [exact H | exact H | exact I].
Defined.

(** ** What Stop does to the goroutine *)

(** A Walker that holds an entry and on which [Stop] was never called: the
    goroutine is in [recv], and will return from [filepath.Walk] when it
    receives the error of [Stop]. *)
Lemma unstopped_on_entry Clean Separator root n before w :
  forallb (fun c => negb (is_CStop c)) before = true ->
  do_calls before (Walk Clean Separator root n) = Done tt w ->
  ok w = true ->
  exists k, itemch w = Receiving k /\ retch w = None
            /\ k (Some ErrStop) = Ret (Some ErrStop).
Proof.
  intros Hb Hrun Hok.
  destruct (unstopped_do_calls before Hb _ _ (unstopped_Walk _ _ _ _) Hrun)
    as (Hr & [(Hf & _) | (_ & k & Hi & Hk & _)]); [congruence|].
  exists k. auto.
Qed.

(** X4: before the first [Step] nothing but [Step] moves the walk: after any
    sequence of [Stop], [SkipDir] and runs of the goroutine on a fresh
    Walker the goroutine still stands at the send of the root's entry, so
    that [Stop] does not release a goroutine whose Walker was never
    stepped. *)
Theorem goroutine_waits_for_first_Step (Clean : string -> string)
        (Separator : ascii) (root : string) (n : node) (cs : list call) :
  forallb (fun c => negb (is_CStep c)) cs = true ->
  exists w, do_calls cs (Walk Clean Separator root n) = Done tt w
            /\ itemch w = Walking (filepath_Walk Clean Separator root n)
            /\ recv_send (itemch w) <> None
            /\ cur w = zero_item /\ ok w = false.
Proof.
  intros Hcs.
  destruct (filepath_Walk_first Clean Separator root n) as [k Hk].
  assert (G : forall w,
             itemch w = Walking (filepath_Walk Clean Separator root n) ->
             cur w = zero_item -> ok w = false ->
             exists w', do_calls cs w = Done tt w'
                        /\ itemch w' = Walking (filepath_Walk Clean Separator root n)
                        /\ cur w' = zero_item /\ ok w' = false).
  { induction cs as [|c cs IH]; intros w Hi Hc Ho; [exists w; auto|].
    cbn [forallb] in Hcs. apply andb_true_iff in Hcs. destruct Hcs as [Hn Hcs].
    cbn [do_calls]. rewrite bind_run.
    assert (E : exists w1, do_call c w = Done tt w1
                           /\ itemch w1 = Walking (filepath_Walk Clean Separator root n)
                           /\ cur w1 = zero_item /\ ok w1 = false).
    { destruct w as [g cu o r rt]. cbn [itemch cur ok] in Hi, Hc, Ho. subst g cu o.
      destruct c; try discriminate.
      - eexists. split; [reflexivity|]. auto.
      - destruct r; eexists; (split; [reflexivity|]); auto.
      - exists (mkWalker (Walking (filepath_Walk Clean Separator root n))
                         zero_item false r rt).
        split; [|auto]. cbn [do_call]. unfold yield, modify. f_equal.
        change (Nat.iter 1 background ?x) with (background x).
        unfold background. cbn [itemch]. now rewrite Hk. }
    destruct E as (w1 & -> & Hi1 & Hc1 & Ho1). now apply IH. }
  destruct (G (Walk Clean Separator root n) eq_refl eq_refl eq_refl)
    as (w & H1 & H2 & H3 & H4).
  exists w. repeat split; auto. rewrite H2, Hk. discriminate.
Qed.

Lemma goroutine_waits_for_first_Step_witness :
  exists w, do_calls [CStop; CYield; CSkipDir; CYield; CStop]
                     (Walk unix_Clean slash "d" (Dir "d" None [File "b"])) = Done tt w
            /\ recv_send (itemch w) <> None /\ ok w = false.
Proof.
  destruct (goroutine_waits_for_first_Step unix_Clean slash "d" (Dir "d" None [File "b"])
              [CStop; CYield; CSkipDir; CYield; CStop] eq_refl)
    as (w & H1 & _ & H3 & _ & H5).
  exists w. auto.
Defined.

(** X6: [Stop] on a delivered entry releases the goroutine without another
    [Step]: as soon as the goroutine has run two steps (it receives the
    error in [recv], [filepath.Walk] returns it, and the channel is
    closed) it is gone, and the Walker still holds the entry. *)
Theorem Stop_on_entry_releases_goroutine (Clean : string -> string)
        (Separator : ascii) (root : string) (n : node) (before : list call)
        (w : Walker) (m : nat) :
  forallb (fun c => negb (is_CStop c)) before = true ->
  do_calls before (Walk Clean Separator root n) = Done tt w ->
  ok w = true ->
  2 <= m ->
  exists w', (Stop ;; yield m) w = Done tt w'
             /\ itemch w' = Exited /\ retch w' = None
             /\ cur w' = cur w /\ ok w' = true.
Proof.
  intros Hb Hrun Hok Hm.
  destruct (unstopped_on_entry _ _ _ _ _ _ Hb Hrun Hok) as (k & Hi & Hr & Hk).
  destruct w as [g cu o r rt]. cbn in Hi, Hr, Hok. subst g r o.
  destruct m as [|[|m]]; try lia.
  eexists. split.
  - change ((Stop ;; yield (S (S m))) (mkWalker (Receiving k) cu true None rt))
      with (Done tt (Nat.iter (S (S m)) background
                       (mkWalker (Receiving k) cu true (Some (Some ErrStop)) rt))).
    now rewrite (Stop_taken k cu rt m Hk).
  - repeat split.
Qed.

Lemma Stop_on_entry_releases_goroutine_witness :
  exists w w', do_calls [CStep; CYield; CStep]
                        (Walk unix_Clean slash "d" (Dir "d" None [File "b"])) = Done tt w
               /\ (Stop ;; yield 2) w = Done tt w'
               /\ itemch w' = Exited /\ path (cur w') = "d/b".
Proof.
  eexists.
  destruct (Stop_on_entry_releases_goroutine unix_Clean slash "d"
              (Dir "d" None [File "b"]) [CStep; CYield; CStep] _ 2
              eq_refl eq_refl eq_refl (le_n 2))
    as (w' & H1 & H2 & _ & H4 & _).
  exists w'. split; [reflexivity|]. split; [exact H1|]. split; [exact H2|].
  rewrite H4. reflexivity.
Defined.

(** X7: a second [Stop] blocks the next [Step] at any point of the walk.
    Whatever the caller did before without [Stop], once the goroutine has
    taken the first [Stop] (one step or more of the goroutine between the
    two calls) the second fills [retch] for good, and the next [Step]
    waits for ever at [w.retch <- w.ret], however long the goroutine runs
    in between. *)
Theorem second_Stop_blocks_Step (Clean : string -> string)
        (Separator : ascii) (root : string) (n : node) (before : list call)
        (w : Walker) (m m' : nat) :
  forallb (fun c => negb (is_CStop c)) before = true ->
  do_calls before (Walk Clean Separator root n) = Done tt w ->
  ok w = true ->
  1 <= m ->
  exists w1, (Stop ;; yield m ;; Stop ;; yield m') w = Done tt w1
             /\ cur w1 = cur w /\ ok w1 = true
             /\ Step w1 = Blocked.
Proof.
  intros Hb Hrun Hok Hm.
  destruct (unstopped_on_entry _ _ _ _ _ _ Hb Hrun Hok) as (k & Hi & Hr & Hk).
  destruct w as [g cu o r rt]. cbn in Hi, Hr, Hok. subst g r o. clear Hrun.
  destruct m as [|m]; [lia|].
  destruct (Stop_twice_on_entry k cu rt m m' Hk) as (g & H1 & H2).
  eexists. split; [exact H1|]. split; [reflexivity|]. split; [reflexivity | exact H2].
Qed.

Lemma second_Stop_blocks_Step_witness :
  exists w w1, do_calls [CStep; CYield; CStep]
                        (Walk unix_Clean slash "d" (Dir "d" None [File "b"])) = Done tt w
               /\ (Stop ;; yield 1 ;; Stop ;; yield 0) w = Done tt w1
               /\ path (cur w1) = "d/b"
               /\ Step w1 = Blocked.
Proof.
  eexists.
  destruct (second_Stop_blocks_Step unix_Clean slash "d"
              (Dir "d" None [File "b"]) [CStep; CYield; CStep] _ 1 0
              eq_refl eq_refl eq_refl (le_n 1))
    as (w1 & H1 & H2 & _ & H4).
  exists w1. split; [reflexivity|]. split; [exact H1|].
  split; [rewrite H2; reflexivity | exact H4].
Defined.

Lemma Stop_on_entry_ends_walk_witness :
  exists w w' w'',
    do_calls [CStep; CSkipDir; CYield]
             (Walk unix_Clean slash "d" (Dir "d" None [File "b"])) = Done tt w
    /\ do_calls [CStop; CYield; CSkipDir] w = Done tt w'
    /\ Step w' = Done false w''.
Proof.
  eexists. eexists.
  destruct (Stop_on_entry_ends_walk unix_Clean slash "d" (Dir "d" None [File "b"])
              [CStep; CSkipDir; CYield] [CYield; CSkipDir] _ _
              eq_refl eq_refl eq_refl eq_refl eq_refl)
    as (w'' & H).
  exists w''. split; [reflexivity|]. split; [reflexivity | exact H].
Defined.

(** ** SkipDir on the entries a caller can tell apart *)

Lemma honest_bind p (f : option error -> walkM (option error)) :
  honest p -> (forall a, honest (f a)) -> honest (bind p f).
Proof.
  intros Hp Hf. induction p as [a|pa inf er k IH]; cbn; [apply Hf|].
  destruct Hp as [Hi Hr]. split; [exact Hi|]. intros r. apply IH, Hr.
Qed.

Lemma honest_walkFn p i e : (i = None -> e <> None) -> honest (walkFn p i e).
Proof. intros H. cbn. split; [exact H | intros r; exact I]. Qed.

Section Honest.
Variable Clean : string -> string.
Variable Separator : ascii.

Lemma honest_walk_range p cs :
  Forall (fun c => forall p, honest (walk Clean Separator c p)) cs ->
  honest (walk_range Clean Separator p
            (map (fun c => (node_name c, (c, walk Clean Separator c))) cs)).
Proof.
  induction 1 as [|c cs Hc _ IH]; [exact I|].
  cbn [map walk_range].
  destruct c as [s e|s|s rd ents]; cbn [lstat];
    (apply honest_bind;
     [first [apply honest_walkFn; discriminate | apply Hc]
     | intros a;
       match goal with |- honest (if ?b then _ else _) => destruct b end;
       [exact I | exact IH]]).
Qed.

Lemma honest_walk n : forall p, honest (walk Clean Separator n p).
Proof.
  induction n as [s e|s|s rd ents IH] using node_induction; intros p.
  - exact I.
  - apply honest_walkFn. discriminate.
  - cbn [walk]. apply honest_bind; [apply honest_walkFn; discriminate|].
    intros a. destruct (negb (is_nil rd) || negb (is_nil a)); [exact I|].
    rewrite sort_by_map. apply honest_walk_range. now apply sorted_Forall.
Qed.

Lemma honest_filepath_Walk root n : honest (filepath_Walk Clean Separator root n).
Proof.
  unfold filepath_Walk. apply honest_bind.
  - destruct n; cbn [lstat];
      first [apply honest_walkFn; discriminate | apply honest_walk].
  - intros a. now destruct (is_SkipDir a).
Qed.
End Honest.

(** The loop of a caller who calls [SkipDir] only where [Err] is nil, on a
    program that never passes neither metadata nor an error. *)
Lemma drain_replay_honest skip sched :
  (forall i it, skip i it = true -> err it = None) ->
  forall p i w fuel,
    honest p ->
    loop_state w p ->
    length (fst (replay skip p i)) < fuel ->
    exists w', drain skip sched fuel i w = Done (Some (fst (replay skip p i))) w'
               /\ ended w'.
Proof.
  intros Hskip. induction p as [a|pa inf er k IH]; intros i w fuel Hh L Hf;
    (destruct fuel as [|fuel]; [inversion Hf|]); cbn [drain];
    rewrite bind_run;
    destruct (yield_loop_state (sched (2 * i)) w _ L) as (w1 & -> & L1 & _).
  - destruct (Step_loop_Ret w1 a L1) as (w2 & Hs & E).
    rewrite bind_run, Hs. exists w2. split; [reflexivity | exact E].
  - rewrite bind_run, (Step_loop_Call w1 _ _ _ _ L1). cbv beta iota.
    destruct Hh as [Hi Hh].
    set (it := mkItem pa inf er).
    set (w2 := mkWalker (Receiving k) it true None None).
    rewrite bind_run. change (entry w2) with (Done it w2). cbv beta iota.
    rewrite bind_run, (yield_waiting _ w2 k eq_refl eq_refl). cbv beta iota.
    cbn [replay fst length] in Hf. apply Nat.succ_lt_mono in Hf.
    assert (Hnext : exists w3, (if skip i it then SkipDir else ret tt) w2 = Done tt w3
                               /\ loop_state w3 (k (reply skip i it))).
    { unfold reply. destruct (skip i it) eqn:Es; cbn [andb].
      - specialize (Hskip i it Es). cbn [it err] in Hskip. unfold is_dir_entry.
        destruct (info it) as [fi|] eqn:Ei; [|now apply Hi in Hskip].
        destruct (IsDir fi) eqn:Ed.
        + rewrite (SkipDir_on_dir w2 fi eq_refl Ei Ed).
          eexists; split; [reflexivity|]. split; [reflexivity|].
          right. split; [reflexivity|]. exists k. split; reflexivity.
        + rewrite (SkipDir_on_file w2 fi eq_refl Ei Ed).
          eexists; split; [reflexivity|]. split; [reflexivity|].
          right. split; [reflexivity|]. exists k. split; reflexivity.
      - eexists; split; [reflexivity|]. split; [reflexivity|].
        right. split; [reflexivity|]. exists k. split; reflexivity. }
    destruct Hnext as (w3 & Hn & L3).
    rewrite bind_run, Hn. cbv beta iota.
    destruct (IH (reply skip i it) (S i) w3 fuel (Hh _) L3 Hf) as (w4 & Hd & E).
    rewrite bind_run, Hd. exists w4. split; [reflexivity | exact E].
Qed.

(** X8: [SkipDir] is safe wherever [Err] is nil: a caller who calls it only on
    entries without an error never meets the nil [FileInfo]; the loop ends
    under any schedule and delivers the traversal that does not descend
    below the directories skipped. *)
Theorem SkipDir_safe_where_Err_is_nil (Clean : string -> string)
        (Separator : ascii) (root : string) (n : node)
        (skip : nat -> item -> bool) (sched : nat -> nat) (fuel : nat) :
  (forall i it, skip i it = true -> err it = None) ->
  length (spec_walk Clean Separator skip n 0 root) < fuel ->
  exists w', drain skip sched fuel 0 (Walk Clean Separator root n)
             = Done (Some (spec_walk Clean Separator skip n 0 root)) w'
             /\ ended w'.
Proof.
  intros Hskip Hf. rewrite <- filepath_Walk_replay in *.
  apply drain_replay_honest; [exact Hskip | apply honest_filepath_Walk | | exact Hf].
  split; [reflexivity|]. left. split; [reflexivity|]. now left.
Qed.

Lemma SkipDir_safe_where_Err_is_nil_witness :
  let t := Dir "d" None [Gone "c" (PathError "lstat"); Dir "a" None [File "x"]] in
  let skip := fun i it => negb (Nat.eqb i 0) && is_nil (err it) in
  exists w',
    drain skip (fun _ => 1) 10 0 (Walk unix_Clean slash "d" t)
    = Done (Some (spec_walk unix_Clean slash skip t 0 "d")) w'
    /\ ended w'
    /\ map path (spec_walk unix_Clean slash skip t 0 "d") = ["d"; "d/a"; "d/c"].
Proof.
  intros t skip.
  destruct (SkipDir_safe_where_Err_is_nil unix_Clean slash "d" t skip (fun _ => 1) 10)
    as (w' & H1 & H2).
  - intros i it H. unfold skip in H. apply andb_true_iff in H.
    destruct H as [_ H]. destruct (err it); [discriminate H | reflexivity].
  - vm_compute. lia.
  - exists w'. split; [exact H1|]. split; [exact H2 | reflexivity].
Defined.

(** The traversal asks the caller's choice only at a directory that was
    listed. *)
Lemma spec_walk_unlisted Clean Separator skip n :
  (forall i it, skip i it = true -> is_dir_entry it = false \/ err it <> None) ->
  forall i p, spec_walk Clean Separator skip n i p = preorder Clean Separator n p.
Proof.
  intros Hskip.
  induction n as [s e|s|s rd ents IH] using node_induction; intros i p;
    try reflexivity.
  destruct rd as [e|]; [reflexivity|].
  rewrite preorder_Dir. cbn [spec_walk].
  destruct (skip i (entry_of p (Dir s None ents))) eqn:Es.
  { apply Hskip in Es. destruct Es as [Es | Es]; [discriminate Es | now destruct Es]. }
  f_equal. rewrite sort_by_map.
  assert (Hs : Forall (fun c => forall i p,
                spec_walk Clean Separator skip c i p = preorder Clean Separator c p)
                      (sort_by node_name ents)).
  { apply Forall_forall. intros c Hin. rewrite Forall_forall in IH.
    apply IH. now apply (sort_by_In node_name). }
  generalize (S i) as j. induction Hs as [|c cs Hc _ IHcs]; intros j;
    [reflexivity|].
  cbn [map spec_children]. unfold below. cbn [flat_map].
  rewrite Hc. f_equal. apply IHcs.
Qed.

(** X9: [SkipDir] changes the walk only on a directory that was listed: a
    caller who calls it only on entries that have metadata and are not
    directories, or carry an error, gets the plain pre-order listing, under
    any schedule. *)
Theorem SkipDir_matters_only_on_listed_directories (Clean : string -> string)
        (Separator : ascii) (root : string) (n : node)
        (skip : nat -> item -> bool) (sched : nat -> nat) (fuel : nat) :
  (forall i it, skip i it = true ->
                info it <> None /\ (is_dir_entry it = false \/ err it <> None)) ->
  reachable_count n < fuel ->
  exists w', drain skip sched fuel 0 (Walk Clean Separator root n)
             = Done (Some (preorder Clean Separator n root)) w'
             /\ ended w'.
Proof.
  intros Hskip Hf.
  assert (E : spec_walk Clean Separator skip n 0 root = preorder Clean Separator n root).
  { apply spec_walk_unlisted. intros i it H. now apply Hskip in H. }
  rewrite <- E. apply drain_spec_walk.
  - intros i it H. now apply Hskip in H.
  - now rewrite E, preorder_length.
Qed.

Lemma SkipDir_matters_only_on_listed_directories_witness :
  let t := Dir "d" None [File "b"; Dir "a" (Some (PathError "open")) [File "x"]] in
  let skip := fun (_ : nat) it =>
                negb (is_nil (info it))
                && (negb (is_dir_entry it) || negb (is_nil (err it))) in
  exists w',
    drain skip (fun _ => 1) 10 0 (Walk unix_Clean slash "d" t)
    = Done (Some (preorder unix_Clean slash t "d")) w'
    /\ ended w'.
Proof.
  intros t skip.
  apply (SkipDir_matters_only_on_listed_directories unix_Clean slash "d" t
           skip (fun _ => 1) 10).
  - intros i it H. unfold skip in H. apply andb_true_iff in H.
    destruct H as [H0 H1]. split.
    + destruct (info it); [discriminate | discriminate H0].
    + apply orb_true_iff in H1. destruct H1 as [H1 | H1].
      * left. now apply negb_true_iff in H1.
      * right. destruct (err it); [discriminate | discriminate H1].
  - vm_compute. lia.
Defined.
